(** * CodeMate: the rule-based analyzer of [src/codeAnalyzer.ts]

    A shallow embedding of [analyzeCode] and of the JavaScript primitives it
    calls (strings as sequences of UTF-16 code units, the regular
    expressions of the rule tables with their backtracking matcher,
    [Math.random] as an explicit stream of draws), followed by the
    properties of the analyzer's result. *)

From Stdlib Require Import String Ascii Bool Arith ZArith NArith Lia List.
Import ListNotations.

(** ** JavaScript strings *)

(** A JavaScript string is a sequence of 16-bit code units. *)
Definition code_unit := N.
Definition jsstring := list code_unit.

Fixpoint lit (s : string) : jsstring :=
  match s with
  | EmptyString => []
  | String a s' => N_of_ascii a :: lit s'
  end.

Definition LF : code_unit := 10%N.

Fixpoint jsstring_eqb (s t : jsstring) : bool :=
  match s, t with
  | [], [] => true
  | c :: s', d :: t' => N.eqb c d && jsstring_eqb s' t'
  | _, _ => false
  end.

(** [WhiteSpace] and [LineTerminator] of ECMAScript: the code units removed
    by [String.prototype.trim] and matched by the class escape [\s]. *)
Definition isWhiteSpace (c : code_unit) : bool :=
  ((9 <=? c) && (c <=? 13) || (c =? 32) || (c =? 160) || (c =? 5760)
   || (8192 <=? c) && (c <=? 8202) || (c =? 8232) || (c =? 8233)
   || (c =? 8239) || (c =? 8287) || (c =? 12288) || (c =? 65279))%N.

(** [s.split(sep)] for a separator of one code unit. *)
Fixpoint split (s : jsstring) (sep : code_unit) : list jsstring :=
  match s with
  | [] => [[]]
  | c :: s' =>
      if N.eqb c sep then [] :: split s' sep
      else match split s' sep with
           | l :: ls => (c :: l) :: ls
           | [] => [[c]]
           end
  end.

(** [s.substring(0, n)]. *)
Definition substring0 (s : jsstring) (n : nat) : jsstring := firstn n s.

(** The part of [s] of length [len] that starts at offset [idx]. *)
Definition slice (s : jsstring) (idx len : nat) : jsstring :=
  firstn len (skipn idx s).

Fixpoint last_index (sep : code_unit) (s : jsstring) : option nat :=
  match s with
  | [] => None
  | c :: s' =>
      match last_index sep s' with
      | Some k => Some (S k)
      | None => if N.eqb c sep then Some 0 else None
      end
  end.

(** [s.lastIndexOf(sep, fromIndex)]: the greatest index [k <= fromIndex]
    that holds [sep], or [-1]. *)
Definition lastIndexOf (s : jsstring) (sep : code_unit) (fromIndex : nat) : Z :=
  match last_index sep (firstn (S fromIndex) s) with
  | Some k => Z.of_nat k
  | None => (-1)%Z
  end.

Fixpoint trimStart (s : jsstring) : jsstring :=
  match s with
  | c :: s' => if isWhiteSpace c then trimStart s' else s
  | [] => []
  end.

Definition trimEnd (s : jsstring) : jsstring := rev (trimStart (rev s)).

Definition trim (s : jsstring) : jsstring := trimEnd (trimStart s).

Fixpoint startsWith (s p : jsstring) : bool :=
  match p, s with
  | [], _ => true
  | d :: p', c :: s' => N.eqb c d && startsWith s' p'
  | _ :: _, [] => false
  end.

(** Truthiness of a string: the empty string alone is falsy. *)
Definition truthy (s : jsstring) : bool :=
  match s with [] => false | _ :: _ => true end.

(** ** Regular expressions

    The patterns of the rule tables are disjunctions of sequences of terms;
    each term is a one-character atom (a literal, a range, [\s] or a negated
    one-character class) with an optional greedy quantifier [*] or [+]. *)

Inductive Atom : Type :=
| Char (c : code_unit)
| Range (lo hi : code_unit)
| WhiteSpaceClass
| NotChar (c : code_unit).

Inductive Quantifier : Type := Once | Star | Plus.

Definition Term : Type := (Atom * Quantifier)%type.
Definition Alternative : Type := list Term.

Record RegExp : Type := mkRegExp {
  disjunction : list Alternative;
  global : bool
}.

Definition atom_matches (a : Atom) (c : code_unit) : bool :=
  match a with
  | Char d => N.eqb c d
  | Range lo hi => ((lo <=? c) && (c <=? hi))%N
  | WhiteSpaceClass => isWhiteSpace c
  | NotChar d => negb (N.eqb c d)
  end.

(** Greedy repetition of an atom followed by the continuation [k]: take the
    next code unit when the atom accepts it and the rest then succeeds,
    otherwise give the code units back to [k].  The result is the number of
    code units consumed. *)
Fixpoint repeatMatcher (a : Atom) (k : jsstring -> option nat) (s : jsstring)
  : option nat :=
  match s with
  | c :: s' =>
      if atom_matches a c then
        match repeatMatcher a k s' with
        | Some n => Some (S n)
        | None => k s
        end
      else k s
  | [] => k []
  end.

Fixpoint matchAlternative (ts : Alternative) (s : jsstring) : option nat :=
  match ts with
  | [] => Some 0
  | (a, q) :: ts' =>
      match q with
      | Star => repeatMatcher a (matchAlternative ts') s
      | Once =>
          match s with
          | c :: s' =>
              if atom_matches a c then option_map S (matchAlternative ts' s')
              else None
          | [] => None
          end
      | Plus =>
          match s with
          | c :: s' =>
              if atom_matches a c
              then option_map S (repeatMatcher a (matchAlternative ts') s')
              else None
          | [] => None
          end
      end
  end.

(** The alternatives of a disjunction are tried from left to right. *)
Fixpoint matchDisjunction (alts : list Alternative) (s : jsstring) : option nat :=
  match alts with
  | [] => None
  | ts :: alts' =>
      match matchAlternative ts s with
      | Some n => Some n
      | None => matchDisjunction alts' s
      end
  end.

(** The length of the match of [r] that starts at the head of [s]. *)
Definition matchHere (r : RegExp) (s : jsstring) : option nat :=
  matchDisjunction (disjunction r) s.

(** A match: the offset of its first code unit ([match.index]) and its
    length. *)
Record Match : Type := mkMatch { index : nat; matchLength : nat }.

(** [RegExpBuiltinExec]: the start offsets are tried in increasing order;
    [pos] is the offset of the head of [s] in the whole text. *)
Fixpoint execFrom (r : RegExp) (s : jsstring) (pos : nat) : option Match :=
  match matchHere r s with
  | Some n => Some (mkMatch pos n)
  | None =>
      match s with
      | [] => None
      | _ :: s' => execFrom r s' (S pos)
      end
  end.

Definition exec (r : RegExp) (s : jsstring) : option Match := execFrom r s 0.

(** [r.test(s)] for a pattern without the [g] flag. *)
Definition test (r : RegExp) (s : jsstring) : bool :=
  match exec r s with Some _ => true | None => false end.

(** The loop shared by [matchAll] and by [match] with the [g] flag: after a
    match of length [n] at [pos] the search resumes at [pos + n], and at
    [pos + 1] when the match is empty.  [skip] counts the code units still
    to pass before the offset where the search resumes. *)
Fixpoint globalMatches (r : RegExp) (s : jsstring) (pos skip : nat) : list Match :=
  match skip, s with
  | S k, _ :: s' => globalMatches r s' (S pos) k
  | S _, [] => []
  | 0, [] =>
      match matchHere r [] with
      | Some n => [mkMatch pos n]
      | None => []
      end
  | 0, _ :: s' =>
      match matchHere r s with
      | Some n => mkMatch pos n :: globalMatches r s' (S pos) (pred n)
      | None => globalMatches r s' (S pos) 0
      end
  end.

(** The value of [s.match(r)]: the result of [exec] when [r] has no [g]
    flag (an array that carries [index]), the array of all the matched
    strings when it has one.  [null] is [None]. *)
Inductive MatchValue : Type :=
| ExecArray (m : Match)
| StringArray (ms : list jsstring).

Definition String_match (s : jsstring) (r : RegExp) : option MatchValue :=
  if global r then
    match globalMatches r s 0 0 with
    | [] => None
    | ms => Some (StringArray (map (fun m => slice s (index m) (matchLength m)) ms))
    end
  else option_map ExecArray (exec r s).

(** [v.index], [undefined] on the array of a global match. *)
Definition index_of (v : MatchValue) : option nat :=
  match v with
  | ExecArray m => Some (index m)
  | StringArray _ => None
  end.

(** [v.length]; the patterns have no capture group. *)
Definition length_of (v : MatchValue) : nat :=
  match v with
  | ExecArray _ => 1
  | StringArray ms => length ms
  end.

(** [s.substring(0, end)], where an [undefined] end is the length of [s]. *)
Definition substring (s : jsstring) (e : option nat) : jsstring :=
  match e with
  | Some n => substring0 s n
  | None => s
  end.

(** ** Errors *)

Inductive JSError : Type := TypeError | RangeError.

Inductive Completion (A : Type) : Type :=
| Normal (a : A)
| Throw (e : JSError).

Arguments Normal {A} a.
Arguments Throw {A} e.

(** [s.matchAll(r)] throws a [TypeError] when [r] has no [g] flag.  The
    iterator works on a copy of [r], whose [lastIndex] starts from that of
    [r], which no call ever moves from 0. *)
Definition matchAll (s : jsstring) (r : RegExp) : Completion (list Match) :=
  if global r then Normal (globalMatches r s 0 0) else Throw TypeError.

(** ** Random numbers

    [Math.random()] returns a double in [0, 1): a value [mant * 2^-expo]
    with [mant < 2^53] and [53 <= expo <= 1074]. *)

Record double01 : Type := mkDouble01 {
  mant : N;
  expo : N;
  in_range : ((mant <? 2 ^ 53) && (53 <=? expo) && (expo <=? 1074))%N = true
}.

(** Rounding of a positive integer to 53 significant bits, to nearest, ties
    to even: what the product of two doubles keeps of the exact product. *)
Definition round53 (p : N) : N :=
  (if p <? 2 ^ 53 then p
   else
     let shift := N.log2 p - 52 in
     let q := p / 2 ^ shift in
     let rest := p mod 2 ^ shift in
     let half := 2 ^ (shift - 1) in
     let q' := if (half <? rest) || ((rest =? half) && N.odd q) then q + 1 else q in
     q' * 2 ^ shift)%N.

(** [Math.floor(x * n)] for a draw [x] and an integer [n < 2^53], as the
    length of an array is: the exact product [mant * n * 2^-expo] is rounded
    to a double, then floored. *)
Definition floor_mul (x : double01) (n : N) : Z :=
  Z.of_N (round53 (mant x * n) / 2 ^ expo x)%N.

(** ** Data model *)

Inductive IssueType : Type := error | warning | suggestion.
Inductive Severity : Type := high | medium | low.

Definition IssueType_eqb (a b : IssueType) : bool :=
  match a, b with
  | error, error | warning, warning | suggestion, suggestion => true
  | _, _ => false
  end.

Module Issue.
Record t : Type := mk {
  id : double01;
  type : IssueType;
  line : Z;
  column : Z;
  message : jsstring;
  rule : jsstring;
  severity : Severity
}.
End Issue.

Module Rule.
Record t : Type := mk {
  pattern : RegExp;
  type : IssueType;
  message : jsstring;
  rule : jsstring;
  severity : Severity
}.
End Rule.

Record Metrics : Type := mkMetrics {
  linesOfCode : Z;
  cyclomaticComplexity : Z;
  maintainabilityIndex : Z;
  duplicateLines : Z;
  testCoverage : Z
}.

Record AnalysisResult : Type := mkAnalysisResult {
  score : Z;
  issues : list Issue.t;
  metrics : Metrics;
  suggestions : list jsstring
}.

(** ** Rule tables *)

(** The code units of a literal, each matched once. *)
Definition chars (s : string) : Alternative :=
  map (fun c => (Char c, Once)) (lit s).

Definition ws (q : Quantifier) : Alternative := [(WhiteSpaceClass, q)].

Definition non (s : string) (q : Quantifier) : Alternative :=
  map (fun c => (NotChar c, q)) (lit s).

Definition lower : Alternative := [(Range 97%N 122%N, Once)].
Definition upper : Alternative := [(Range 65%N 90%N, Once)].

Definition regexp (ts : Alternative) : RegExp := mkRegExp [ts] false.
Definition regexp_g (alts : list Alternative) : RegExp := mkRegExp alts true.

(** The objects of the three tables, named after their language and rule. *)

Definition javaNamingConvention : Rule.t :=
  Rule.mk
    (regexp (chars "class" ++ ws Plus ++ lower))
    warning
    (lit "Class names should start with uppercase letter")
    (lit "naming-convention")
    medium.

Definition javaMethodComplexity : Rule.t :=
  Rule.mk
    (regexp (chars "public" ++ ws Plus ++ chars "static" ++ ws Plus
             ++ chars "void" ++ ws Plus ++ chars "main" ++ ws Star
             ++ chars "(" ++ non ")" Star ++ chars ")" ++ ws Star
             ++ chars "{" ++ non "}" Star ++ chars "}"))
    suggestion
    (lit "Consider extracting logic from main method into separate methods")
    (lit "method-complexity")
    low.

Definition javaUnusedImports : Rule.t :=
  Rule.mk
    (regexp_g [chars "import" ++ ws Plus ++ non ";" Plus ++ chars ";"])
    suggestion
    (lit "Remove unused imports to improve code clarity")
    (lit "unused-imports")
    low.

Definition javaPerformance : Rule.t :=
  Rule.mk
    (regexp (chars "for" ++ ws Star ++ chars "(" ++ non ")" Star ++ chars ")"
             ++ ws Star ++ chars "{" ++ ws Star ++ chars "for" ++ ws Star
             ++ chars "(" ++ non ")" Star ++ chars ")"))
    warning
    (lit "Nested loops detected - consider optimization")
    (lit "performance")
    medium.

Definition javaRules : list Rule.t :=
  [ javaNamingConvention;
    javaMethodComplexity;
    javaUnusedImports;
    javaPerformance ].

Definition pythonNamingConvention : Rule.t :=
  Rule.mk
    (regexp (chars "def" ++ ws Plus ++ upper))
    warning
    (lit "Function names should be in snake_case")
    (lit "naming-convention")
    medium.

Definition pythonImportStyle : Rule.t :=
  Rule.mk
    (regexp (chars "import" ++ ws Plus ++ chars "*"))
    warning
    (lit "Avoid wildcard imports")
    (lit "import-style")
    medium.

Definition pythonExceptionHandling : Rule.t :=
  Rule.mk
    (regexp (chars "except:"))
    error
    (lit "Bare except clauses should specify exception types")
    (lit "exception-handling")
    high.

Definition pythonRules : list Rule.t :=
  [ pythonNamingConvention;
    pythonImportStyle;
    pythonExceptionHandling ].

Definition cppIncludeOptimization : Rule.t :=
  Rule.mk
    (regexp_g [chars "#include" ++ ws Star ++ chars "<" ++ non ">" Plus
               ++ chars ">"])
    suggestion
    (lit "Consider using forward declarations to reduce compilation time")
    (lit "include-optimization")
    low.

Definition cppNamespacePollution : Rule.t :=
  Rule.mk
    (regexp (chars "using" ++ ws Plus ++ chars "namespace" ++ ws Plus
             ++ chars "std;"))
    warning
    (lit "Avoid " ++ [34%N] ++ lit "using namespace std" ++ [34%N]
     ++ lit " in header files")
    (lit "namespace-pollution")
    medium.

Definition cppMemoryManagement : Rule.t :=
  Rule.mk
    (regexp (chars "new" ++ ws Plus))
    suggestion
    (lit "Consider using smart pointers instead of raw pointers")
    (lit "memory-management")
    medium.

Definition cppRules : list Rule.t :=
  [ cppIncludeOptimization;
    cppNamespacePollution;
    cppMemoryManagement ].

(** The pattern of the complexity count, [/if|else|while|for|switch|case/g]. *)
Definition branchKeywords : RegExp :=
  regexp_g [chars "if"; chars "else"; chars "while"; chars "for";
            chars "switch"; chars "case"].

Definition suggestionPool : list jsstring :=
  [ lit "Break down large methods into smaller, more focused functions";
    lit "Add unit tests to improve code reliability";
    lit "Use meaningful variable and method names";
    lit "Consider using design patterns for better code structure";
    lit "Add error handling and logging where appropriate" ].

(** ** The analyzer

    [analyzeCode] reads [Math.random()] and pushes onto its local array
    [issues]; a call of a primitive may throw.  The store holds the number
    of draws made so far and the array. *)

Record Store : Type := mkStore {
  drawn : nat;
  issuesArray : list Issue.t
}.

Section Analyzer.

(** The successive values of [Math.random()]. *)
Variable random : nat -> double01.

Definition M (A : Type) : Type := Store -> Completion (A * Store).

Definition ret {A} (a : A) : M A := fun st => Normal (a, st).

Definition bind {A B} (m : M A) (f : A -> M B) : M B :=
  fun st =>
    match m st with
    | Normal (a, st') => f a st'
    | Throw e => Throw e
    end.

Notation "x <- m ;; k" := (bind m (fun x => k))
  (at level 61, m at next level, right associativity).
Notation "m ;; k" := (bind m (fun _ => k))
  (at level 61, right associativity).

Definition lift {A} (c : Completion A) : M A :=
  fun st =>
    match c with
    | Normal a => Normal (a, st)
    | Throw e => Throw e
    end.

Definition Math_random : M double01 :=
  fun st => Normal (random (drawn st), mkStore (S (drawn st)) (issuesArray st)).

(** [issues.push(i)]. *)
Definition push (i : Issue.t) : M unit :=
  fun st => Normal (tt, mkStore (drawn st) (issuesArray st ++ [i])).

Definition readIssues : M (list Issue.t) :=
  fun st => Normal (issuesArray st, st).

Fixpoint forEach {A} (xs : list A) (f : A -> M unit) : M unit :=
  match xs with
  | [] => ret tt
  | x :: xs' => f x ;; forEach xs' f
  end.

(** [generateRandomId]: one draw, of which the identifier is the rendering
    in base 36; the draw stands for the identifier. *)
Definition generateRandomId : M double01 := Math_random.

(** The object pushed for a match of [rule] (lines 132-141 and 146-155);
    [idx] is [match.index]. *)
Definition ruleIssue (code : jsstring) (rule : Rule.t) (idx : option nat)
  : M unit :=
  let lineNumber := Z.of_nat (length (split (substring code idx) LF)) in
  id <- generateRandomId ;;
  push (Issue.mk id
          (Rule.type rule)
          lineNumber
          (match idx with
           | Some (S i) => Z.of_nat (S i) - lastIndexOf code LF (S i)
           | _ => 0
           end)%Z
          (Rule.message rule)
          (Rule.rule rule)
          (Rule.severity rule)).

(** The body of [rules.forEach] (lines 128-158). *)
Definition applyRule (code : jsstring) (rule : Rule.t) : M unit :=
  if global (Rule.pattern rule) then
    matches <- lift (matchAll code (Rule.pattern rule)) ;;
    forEach matches (fun m => ruleIssue code rule (Some (index m)))
  else if test (Rule.pattern rule) code then
    match String_match code (Rule.pattern rule) with
    | Some m => ruleIssue code rule (index_of m)
    | None => ret tt
    end
  else ret tt.

(** The [switch] on [language] (lines 112-123). *)
Definition rulesFor (language : jsstring) : list Rule.t :=
  if jsstring_eqb language (lit "java") then javaRules
  else if jsstring_eqb language (lit "python") then pythonRules
  else if jsstring_eqb language (lit "cpp") then cppRules
  else [].

Definition countType (t : IssueType) (l : list Issue.t) : Z :=
  Z.of_nat (length (filter (fun i => IssueType_eqb (Issue.type i) t) l)).

Definition analyzeCode (code language : jsstring) : M AnalysisResult :=
  (* await new Promise(resolve => setTimeout(resolve, 2000)): the timer
     resolves the promise and the function resumes *)
  let lines := split code LF in
  let linesOfCode :=
    Z.of_nat (length (filter (fun line =>
                        truthy (trim line)
                        && negb (startsWith (trim line) (lit "//"))) lines)) in
  let rules := rulesFor language in
  forEach rules (applyRule code) ;;
  id1 <- generateRandomId ;;
  r1 <- Math_random ;;
  id2 <- generateRandomId ;;
  r2 <- Math_random ;;
  let additionalIssues :=
    [ Issue.mk id1 suggestion
        (floor_mul r1 (N.of_nat (length lines)) + 1)%Z 5%Z
        (lit "Consider adding documentation comments")
        (lit "documentation") low;
      Issue.mk id2 warning
        (floor_mul r2 (N.of_nat (length lines)) + 1)%Z 10%Z
        (lit "Variable naming could be more descriptive")
        (lit "naming-clarity") medium ] in
  forEach additionalIssues push ;;
  issues <- readIssues ;;
  let cyclomaticComplexity :=
    (* code.match(...)?.length || 0 *)
    Z.max 1 (linesOfCode / 10
             + match String_match code branchKeywords with
               | Some v => Z.of_nat (length_of v)
               | None => 0
               end)%Z in
  let maintainabilityIndex :=
    Z.max 10 (100 - Z.of_nat (length issues) * 5 - cyclomaticComplexity / 2)%Z in
  r3 <- Math_random ;;
  let duplicateLines := floor_mul r3 5 in
  let testCoverage := Z.max 0 (100 - Z.of_nat (length issues) * 3)%Z in
  let errorPenalty := (countType error issues * 15)%Z in
  let warningPenalty := (countType warning issues * 8)%Z in
  let suggestionPenalty := (countType suggestion issues * 3)%Z in
  let score :=
    Z.max 0 (Z.min 100 (100 - errorPenalty - warningPenalty - suggestionPenalty))%Z in
  r4 <- Math_random ;;
  let suggestions :=
    firstn (Z.to_nat (floor_mul r4 3 + 2)) suggestionPool in
  ret (mkAnalysisResult score issues
         (mkMetrics linesOfCode cyclomaticComplexity maintainabilityIndex
            duplicateLines testCoverage)
         suggestions).

(** A call: the array [issues] starts empty; [seed] is the number of draws
    made before the call. *)
Definition call (code language : jsstring) (seed : nat)
  : Completion AnalysisResult :=
  match analyzeCode code language (mkStore seed []) with
  | Normal (res, _) => Normal res
  | Throw e => Throw e
  end.

End Analyzer.

(** ** The stages of [analyzeCode] as functions

    The issues pushed for the match offsets [idxs] of [rule], the first of
    them after [d] draws. *)

Definition issueAt (x : double01) (code : jsstring) (rule : Rule.t) (idx : nat)
  : Issue.t :=
  Issue.mk x
    (Rule.type rule)
    (Z.of_nat (length (split (substring0 code idx) LF)))
    (match idx with
     | S i => (Z.of_nat (S i) - lastIndexOf code LF (S i))%Z
     | O => 0%Z
     end)
    (Rule.message rule)
    (Rule.rule rule)
    (Rule.severity rule).

Fixpoint issuesAt (random : nat -> double01) (code : jsstring) (rule : Rule.t)
    (d : nat) (idxs : list nat) : list Issue.t :=
  match idxs with
  | [] => []
  | i :: idxs' => issueAt (random d) code rule i :: issuesAt random code rule (S d) idxs'
  end.

(** The matches that [applyRule] turns into issues. *)
Definition ruleMatches (code : jsstring) (rule : Rule.t) : list Match :=
  if global (Rule.pattern rule) then globalMatches (Rule.pattern rule) code 0 0
  else match exec (Rule.pattern rule) code with
       | Some m => [m]
       | None => []
       end.

Definition ruleIssues (random : nat -> double01) (code : jsstring)
    (rule : Rule.t) (d : nat) : list Issue.t :=
  issuesAt random code rule d (map index (ruleMatches code rule)).

Fixpoint catalogIssues (random : nat -> double01) (code : jsstring)
    (rules : list Rule.t) (d : nat) : list Issue.t :=
  match rules with
  | [] => []
  | rule :: rules' =>
      ruleIssues random code rule d
      ++ catalogIssues random code rules' (d + length (ruleMatches code rule))
  end.

(** The Matcher: the array [issues] once [rules.forEach] has run. *)
Definition Matcher (random : nat -> double01) (code language : jsstring)
    (seed : nat) : Completion (list Issue.t) :=
  match forEach (rulesFor language) (applyRule random code) (mkStore seed []) with
  | Normal (_, st) => Normal (issuesArray st)
  | Throw e => Throw e
  end.

(** ** Notions of the specification *)

(** The words of a pattern. *)
Fixpoint inAlternative (ts : Alternative) (w : jsstring) : Prop :=
  match ts with
  | [] => w = []
  | (a, Once) :: ts' =>
      exists c v, w = c :: v /\ atom_matches a c = true /\ inAlternative ts' v
  | (a, Star) :: ts' =>
      exists u v, w = u ++ v
                  /\ Forall (fun c => atom_matches a c = true) u
                  /\ inAlternative ts' v
  | (a, Plus) :: ts' =>
      exists c u v, w = c :: u ++ v
                    /\ atom_matches a c = true
                    /\ Forall (fun c => atom_matches a c = true) u
                    /\ inAlternative ts' v
  end.

Definition inLanguage (r : RegExp) (w : jsstring) : Prop :=
  exists ts, In ts (disjunction r) /\ inAlternative ts w.

(** [m] is an occurrence of the pattern [r] in [code]. *)
Definition occurrence (r : RegExp) (code : jsstring) (m : Match) : Prop :=
  index m + matchLength m <= length code
  /\ inLanguage r (slice code (index m) (matchLength m)).

Definition disjoint (m1 m2 : Match) : Prop :=
  index m1 + matchLength m1 <= index m2 \/ index m2 + matchLength m2 <= index m1.

(** [code] contains exactly [n] non-overlapping occurrences of [r]: some [n]
    occurrences are pairwise disjoint, and no more than [n] are. *)
Definition occursTimes (r : RegExp) (code : jsstring) (n : nat) : Prop :=
  (exists occs, length occs = n
                /\ Forall (occurrence r code) occs
                /\ ForallOrdPairs disjoint occs)
  /\ (forall occs, Forall (occurrence r code) occs ->
                   ForallOrdPairs disjoint occs -> length occs <= n).

(** The number of line breaks in the text before offset [idx]. *)
Definition lineBreaksBefore (code : jsstring) (idx : nat) : nat :=
  count_occ N.eq_dec (firstn idx code) LF.

(** The offset of the nearest line break before offset [idx], [-1] when
    there is none. *)
Definition precedingLineBreak (code : jsstring) (idx : nat) : Z :=
  match last_index LF (firstn idx code) with
  | Some k => Z.of_nat k
  | None => (-1)%Z
  end.

(** The number of segments that the line breaks separate. *)
Definition lineCount (code : jsstring) : nat :=
  S (count_occ N.eq_dec code LF).

(** The column as the specification words it: the offset from the preceding
    line break, and 0 when the match starts at a line start or before any
    line break of the text. *)
Definition atLineStart (code : jsstring) (idx : nat) : bool :=
  match idx with
  | 0 => true
  | S i => N.eqb (nth i code 0%N) LF
  end.

Definition specColumn (code : jsstring) (idx : nat) : Z :=
  if atLineStart code idx then 0%Z
  else match last_index LF (firstn idx code) with
       | None => 0%Z
       | Some k => (Z.of_nat idx - Z.of_nat k)%Z
       end.

(** The column that [analyzeCode] yields for a match at offset [idx], in
    terms of the line break that precedes the match. *)
Definition codeColumn (code : jsstring) (idx : nat) : Z :=
  match idx with
  | 0 => 0%Z
  | S _ => (Z.of_nat idx - precedingLineBreak code idx)%Z
  end.

(** The issue [i] is located at the start of the match [m]. *)
Definition locatedAt (code : jsstring) (m : Match) (i : Issue.t) : Prop :=
  Issue.line i = Z.of_nat (1 + lineBreaksBefore code (index m))
  /\ Issue.column i = codeColumn code (index m).

(** The location as the specification words it. *)
Definition specLocatedAt (code : jsstring) (m : Match) (i : Issue.t) : Prop :=
  Issue.line i = Z.of_nat (1 + lineBreaksBefore code (index m))
  /\ Issue.column i = specColumn code (index m).

Definition withRule (rid : jsstring) (l : list Issue.t) : list Issue.t :=
  filter (fun i => jsstring_eqb (Issue.rule i) rid) l.

Definition clamp (x lo hi : Z) : Z := Z.max lo (Z.min hi x).

(** The pattern of a rule starts with a literal code unit other than a line
    break. *)
Definition startsWithLiteral (r : RegExp) : bool :=
  forallb (fun ts => match ts with
                     | (Char c, Once) :: _ => negb (N.eqb c LF)
                     | _ => false
                     end) (disjunction r).

(** [t] ends every word of the alternative and occurs nowhere else in it. *)
Fixpoint terminatedBy (t : code_unit) (ts : Alternative) : bool :=
  match ts with
  | [] => false
  | (a, q) :: ts' =>
      match ts' with
      | [] => match a, q with
              | Char c, Once => N.eqb c t
              | _, _ => false
              end
      | _ :: _ => negb (atom_matches a t) && terminatedBy t ts'
      end
  end.

Definition terminated (r : RegExp) (t : code_unit) : Prop :=
  forall w, inLanguage r w -> exists u, w = u ++ [t] /\ ~ In t u.

Definition endOf (m : Match) : nat := index m + matchLength m.

(** ** Sample draws and texts *)

Definition half : double01 := mkDouble01 (2 ^ 52) 53 eq_refl.
Definition almostOne : double01 := mkDouble01 (2 ^ 53 - 1) 53 eq_refl.
Definition zero : double01 := mkDouble01 0 1074 eq_refl.

Definition sampleRandom (n : nat) : double01 :=
  if Nat.even n then half else almostOne.

Definition java : jsstring := lit "java".
Definition python : jsstring := lit "python".
Definition cpp : jsstring := lit "cpp".

(** A class declaration on the second line. *)
Definition classOnSecondLine : jsstring := [LF] ++ lit "class a".

(** A class declaration after two code units of the only line. *)
Definition classAfterTwo : jsstring := lit "x class a".

Definition threeImports : jsstring :=
  lit "import a;" ++ [LF] ++ lit "import b;" ++ [LF] ++ lit "import c;".

Definition fiveExcepts : jsstring :=
  lit "except: except: except: except: except:".

(** The two scenarios of the specification. *)
Definition calculatorSource : jsstring :=
  lit "public class calculator { public static void main(String[] args) { for(int i=0;i<5;i++){for(int j=0;j<3;j++){} } } }".

Definition wildcardAndBareExcept : jsstring :=
  lit "from os import *" ++ [LF] ++ lit "try:" ++ [LF] ++ lit "  pass"
  ++ [LF] ++ lit "except:" ++ [LF] ++ lit "  pass".

(** The identifiers, types and positions of the issues of a completed
    call. *)
Definition issueSummary (c : Completion AnalysisResult)
  : list (jsstring * IssueType * Z * Z) :=
  match c with
  | Normal res =>
      map (fun i => (Issue.rule i, Issue.type i, Issue.line i, Issue.column i))
        (issues res)
  | Throw _ => []
  end.

Definition scoreOf (c : Completion AnalysisResult) : option Z :=
  match c with
  | Normal res => Some (score res)
  | Throw _ => None
  end.

(** ** The results panel ([src/AnalysisResults.tsx])

    The values that the component computes from its properties; the markup
    that shows them is not modelled. *)

Module Panel.

Definition getScoreColor (score : Z) : jsstring :=
  if (90 <=? score)%Z then lit "text-green-400"
  else if (70 <=? score)%Z then lit "text-yellow-400"
  else lit "text-red-400".

Definition getScoreGradient (score : Z) : jsstring :=
  if (90 <=? score)%Z then lit "from-green-500 to-green-600"
  else if (70 <=? score)%Z then lit "from-yellow-500 to-yellow-600"
  else lit "from-red-500 to-red-600".

(** The guard of the section of suggestions,
    [result.suggestions.length > 0]. *)
Definition showsSuggestions (result : AnalysisResult) : bool :=
  0 <? length (suggestions result).

Record IssuesByType : Type := mkIssuesByType {
  errors : nat;
  warnings : nat;
  suggestions : nat
}.

Definition issuesByType (result : AnalysisResult) : IssuesByType :=
  mkIssuesByType
    (length (filter (fun issue => IssueType_eqb (Issue.type issue) error)
               (issues result)))
    (length (filter (fun issue => IssueType_eqb (Issue.type issue) warning)
               (issues result)))
    (length (filter (fun issue => IssueType_eqb (Issue.type issue) suggestion)
               (issues result))).

(** What the component returns: the spinner, the invitation, or the report
    of a result. *)
Inductive View : Type :=
| Spinner
| Invitation
| Report (result : AnalysisResult).

Definition AnalysisResults (result : option AnalysisResult) (isAnalyzing : bool)
  : View :=
  if isAnalyzing then Spinner
  else match result with
       | None => Invitation
       | Some r => Report r
       end.

End Panel.

(** ** The report exporter ([src/pdfExport.ts])

    The decisions of [exportToPDF] that depend on the result; the drawing
    calls of the PDF library and the layout are not modelled. *)

Module PdfExport.

(** Line 56. *)
Definition scoreColor (score : Z) : list Z :=
  if (90 <=? score)%Z then [34; 197; 94]%Z
  else if (70 <=? score)%Z then [251; 191; 36]%Z
  else [239; 68; 68]%Z.

(** Lines 76-78. *)
Definition errorCount (result : AnalysisResult) : nat :=
  length (filter (fun i => IssueType_eqb (Issue.type i) error) (issues result)).

Definition warningCount (result : AnalysisResult) : nat :=
  length (filter (fun i => IssueType_eqb (Issue.type i) warning) (issues result)).

Definition suggestionCount (result : AnalysisResult) : nat :=
  length (filter (fun i => IssueType_eqb (Issue.type i) suggestion)
            (issues result)).

(** Line 130: the issues that get a block of details,
    [result.issues.slice(0, 10)]. *)
Definition detailedIssues (result : AnalysisResult) : list Issue.t :=
  firstn 10 (issues result).

(** Line 157. *)
Definition printsSuggestions (result : AnalysisResult) : bool :=
  0 <? length (suggestions result).

End PdfExport.

(** ** The application ([App] and [CodeEditor])

    The state of [App] and the handlers that change it.  A handler runs on
    the state of the last render; [await] splits [handleAnalyze] in two. *)

Definition DOT : code_unit := 46%N.

Definition javaSample : jsstring :=
  lit "public class Calculator {" ++ [LF]
  ++ lit "    public static void main(String[] args) {" ++ [LF]
  ++ lit "        int a = 5;" ++ [LF]
  ++ lit "        int b = 3;" ++ [LF]
  ++ lit "        System.out.println(" ++ [34%N] ++ lit "Sum: " ++ [34%N] ++ lit " + (a + b));" ++ [LF]
  ++ lit "        " ++ [LF]
  ++ lit "        // Nested loop example" ++ [LF]
  ++ lit "        for (int i = 0; i < 5; i++) {" ++ [LF]
  ++ lit "            for (int j = 0; j < 3; j++) {" ++ [LF]
  ++ lit "                System.out.println(i + " ++ [34%N] ++ lit ", " ++ [34%N] ++ lit " + j);" ++ [LF]
  ++ lit "            }" ++ [LF]
  ++ lit "        }" ++ [LF]
  ++ lit "    }" ++ [LF]
  ++ lit "}".

Definition pythonSample : jsstring :=
  lit "import *" ++ [LF]
  ++ lit "from math import sqrt" ++ [LF]
  ++ [LF]
  ++ lit "def calculateAverage(numbers):" ++ [LF]
  ++ lit "    try:" ++ [LF]
  ++ lit "        total = sum(numbers)" ++ [LF]
  ++ lit "        return total / len(numbers)" ++ [LF]
  ++ lit "    except:" ++ [LF]
  ++ lit "        return 0" ++ [LF]
  ++ [LF]
  ++ lit "def ProcessData(data):" ++ [LF]
  ++ lit "    result = []" ++ [LF]
  ++ lit "    for item in data:" ++ [LF]
  ++ lit "        if item > 0:" ++ [LF]
  ++ lit "            result.append(sqrt(item))" ++ [LF]
  ++ lit "    return result".

Definition cppSample : jsstring :=
  lit "#include <iostream>" ++ [LF]
  ++ lit "#include <vector>" ++ [LF]
  ++ lit "#include <memory>" ++ [LF]
  ++ [LF]
  ++ lit "using namespace std;" ++ [LF]
  ++ [LF]
  ++ lit "class DataProcessor {" ++ [LF]
  ++ lit "public:" ++ [LF]
  ++ lit "    void processData() {" ++ [LF]
  ++ lit "        int* data = new int[100];" ++ [LF]
  ++ lit "        " ++ [LF]
  ++ lit "        for (int i = 0; i < 100; i++) {" ++ [LF]
  ++ lit "            data[i] = i * 2;" ++ [LF]
  ++ lit "        }" ++ [LF]
  ++ lit "        " ++ [LF]
  ++ lit "        // Memory leak - forgot to delete[]" ++ [LF]
  ++ lit "        cout << " ++ [34%N] ++ lit "Processing complete" ++ [34%N] ++ lit " << endl;" ++ [LF]
  ++ lit "    }" ++ [LF]
  ++ lit "};".

(** [sampleCodes[key]]: [None] when the object has no sample for the key. *)
Definition sampleCodes (key : jsstring) : option jsstring :=
  if jsstring_eqb key (lit "java") then Some javaSample
  else if jsstring_eqb key (lit "python") then Some pythonSample
  else if jsstring_eqb key (lit "cpp") then Some cppSample
  else None.

(** The values of the [languages] of [CodeEditor], one per button. *)
Definition languages : list jsstring := [lit "java"; lit "python"; lit "cpp"].

(** [a.pop()] on a fresh array: its last element, [undefined] when it is
    empty. *)
Definition pop (a : list jsstring) : option jsstring :=
  match rev a with
  | [] => None
  | x :: _ => Some x
  end.

(** [x === s] for a string or [undefined] [x]. *)
Definition strictEq (x : option jsstring) (s : jsstring) : bool :=
  match x with
  | Some t => jsstring_eqb t s
  | None => false
  end.

Module App.

Record State : Type := mkState {
  code : jsstring;
  language : jsstring;
  result : option AnalysisResult;
  isAnalyzing : bool
}.

(** [useState('')], [useState('java')], [useState(null)],
    [useState(false)]. *)
Definition initial : State := mkState [] (lit "java") None false.

Definition setCode (v : jsstring) (st : State) : State :=
  mkState v (language st) (result st) (isAnalyzing st).

Definition setLanguage (v : jsstring) (st : State) : State :=
  mkState (code st) v (result st) (isAnalyzing st).

Definition setResult (v : option AnalysisResult) (st : State) : State :=
  mkState (code st) (language st) v (isAnalyzing st).

Definition setIsAnalyzing (v : bool) (st : State) : State :=
  mkState (code st) (language st) (result st) v.

(** [handleAnalyze] up to its [await]: the new state, and the arguments of
    the call of [analyzeCode] that it starts, if it starts one. *)
Definition handleAnalyze (st : State) : State * option (jsstring * jsstring) :=
  if negb (truthy (trim (code st))) then (st, None)
  else (setIsAnalyzing true st, Some (code st, language st)).

(** [handleAnalyze] from its [await] on: [c] is the outcome of the call. *)
Definition handleAnalyzeResume (c : Completion AnalysisResult) (st : State)
  : State :=
  setIsAnalyzing false
    match c with
    | Normal analysisResult => setResult (Some analysisResult) st
    | Throw _ => st
    end.

(** [handleLoadSample]: [None] when [sampleCodes] has no text for the
    language, and [setCode] would receive [undefined]. *)
Definition handleLoadSample (st : State) : option State :=
  match sampleCodes (language st) with
  | Some text => Some (setCode text st)
  | None => None
  end.

(** The [disabled] of the button that calls [onAnalyze]. *)
Definition analyzeDisabled (st : State) : bool :=
  negb (truthy (trim (code st))) || isAnalyzing st.

Section Upload.

(** [String.prototype.toLowerCase], which follows the Unicode tables. *)
Variable toLowerCase : jsstring -> jsstring.

(** [file.name.split('.').pop()?.toLowerCase()]. *)
Definition extension (name : jsstring) : option jsstring :=
  option_map toLowerCase (pop (split name DOT)).

(** The [reader.onload] of [handleFileUpload], for a file named [name]
    whose text is [content]. *)
Definition handleFileUpload (name content : jsstring) (st : State) : State :=
  let st := setCode content st in
  if strictEq (extension name) (lit "java") then setLanguage (lit "java") st
  else if strictEq (extension name) (lit "py") then setLanguage (lit "python") st
  else if strictEq (extension name) (lit "cpp")
          || strictEq (extension name) (lit "cc")
          || strictEq (extension name) (lit "cxx")
       then setLanguage (lit "cpp") st
  else st.

(** The application between two events: the state of [App] and the
    arguments of the calls of [analyzeCode] that have not settled yet, the
    oldest first. *)
Record Machine : Type := mkMachine {
  ui : State;
  pending : list (jsstring * jsstring)
}.

Definition start : Machine := mkMachine initial [].

Definition started (p : option (jsstring * jsstring)) : list (jsstring * jsstring) :=
  match p with
  | Some call => [call]
  | None => []
  end.

(** One event: an edit of the text area, a click on Clear, on a language
    button, on Load Sample or on Analyze when it is enabled, the end of the
    reading of an uploaded file, or the settling of the oldest call of
    [analyzeCode], whose draws are [random] from [seed] on. *)
Inductive step : Machine -> Machine -> Prop :=
| step_edit (m : Machine) (value : jsstring) :
    step m (mkMachine (setCode value (ui m)) (pending m))
| step_clear (m : Machine) :
    step m (mkMachine (setCode [] (ui m)) (pending m))
| step_language (m : Machine) (value : jsstring) :
    In value languages ->
    step m (mkMachine (setLanguage value (ui m)) (pending m))
| step_sample (m : Machine) (st : State) :
    handleLoadSample (ui m) = Some st ->
    step m (mkMachine st (pending m))
| step_upload (m : Machine) (name content : jsstring) :
    step m (mkMachine (handleFileUpload name content (ui m)) (pending m))
| step_analyze (m : Machine) :
    analyzeDisabled (ui m) = false ->
    step m (mkMachine (fst (handleAnalyze (ui m)))
              (pending m ++ started (snd (handleAnalyze (ui m)))))
| step_settle (m : Machine) (random : nat -> double01) (seed : nat)
    (c l : jsstring) (rest : list (jsstring * jsstring)) :
    pending m = (c, l) :: rest ->
    step m (mkMachine (handleAnalyzeResume (call random c l seed) (ui m)) rest).

Inductive reachable : Machine -> Prop :=
| reachable_start : reachable start
| reachable_step (m m' : Machine) : reachable m -> step m m' -> reachable m'.

End Upload.

End App.

(** Lower case of the code units of ASCII, the others unchanged. *)
Definition asciiLower (s : jsstring) : jsstring :=
  map (fun c => if ((65 <=? c) && (c <=? 90))%N then (c + 32)%N else c) s.

(** Sample states of the application: after the text [class a] was typed,
    after Analyze was then clicked, and after that analysis settled. *)
Definition editedMachine : App.Machine :=
  App.mkMachine (App.setCode (lit "class a") App.initial) [].

Definition analyzingMachine : App.Machine :=
  App.mkMachine (App.mkState (lit "class a") (lit "java") None true)
    [(lit "class a", lit "java")].

Definition settledMachine : App.Machine :=
  App.mkMachine
    (App.handleAnalyzeResume (call sampleRandom (lit "class a") (lit "java") 0)
       (App.ui analyzingMachine))
    [].

(** ** Further notions of the specification *)

(** Two issues that differ at most in their identifiers. *)
Definition sameButId (i j : Issue.t) : Prop :=
  Issue.type i = Issue.type j /\ Issue.line i = Issue.line j
  /\ Issue.column i = Issue.column j /\ Issue.message i = Issue.message j
  /\ Issue.rule i = Issue.rule j /\ Issue.severity i = Issue.severity j.

(** Two issues that differ at most in their identifiers and lines. *)
Definition sameButIdAndLine (i j : Issue.t) : Prop :=
  Issue.type i = Issue.type j
  /\ Issue.column i = Issue.column j /\ Issue.message i = Issue.message j
  /\ Issue.rule i = Issue.rule j /\ Issue.severity i = Issue.severity j.

(** A text of white space only, which [trim] empties. *)
Definition blank (s : jsstring) : Prop := trim s = [].

(** Every alternative of the pattern starts with a literal code unit that
    is not white space. *)
Definition startsWithInk (r : RegExp) : bool :=
  forallb (fun ts => match ts with
                     | (Char c, Once) :: _ => negb (isWhiteSpace c)
                     | _ => false
                     end) (disjunction r).

(** * Properties *)

(** ** The analyzer on sample texts *)

Example split_lines :
  split (lit "ab" ++ [LF] ++ lit "cd" ++ [LF]) LF = [lit "ab"; lit "cd"; []].
Proof. reflexivity. Qed.

Example greedy_backtracks :
  exec (Rule.pattern javaUnusedImports) (lit "import  ;") = Some (mkMatch 0 9)
  /\ exec (Rule.pattern javaUnusedImports) (lit "import ;") = None.
Proof. split; reflexivity. Qed.

Example floor_of_largest_draw :
  floor_mul almostOne 3 = 2%Z /\ floor_mul almostOne 1 = 0%Z
  /\ floor_mul almostOne (2 ^ 32 - 1) = (2 ^ 32 - 2)%Z
  /\ floor_mul half 5 = 2%Z /\ floor_mul zero 5 = 0%Z.
Proof. repeat split; reflexivity. Qed.

Example calculator_scenario :
  issueSummary (call sampleRandom calculatorSource java 0)
  = [ (lit "naming-convention", warning, 1, 8);
      (lit "method-complexity", suggestion, 1, 27);
      (lit "performance", warning, 1, 68);
      (lit "documentation", suggestion, 1, 5);
      (lit "naming-clarity", warning, 1, 10) ]%Z.
Proof. vm_compute. reflexivity. Qed.

Example wildcard_scenario :
  issueSummary (call sampleRandom wildcardAndBareExcept python 0)
  = [ (lit "import-style", warning, 1, 9);
      (lit "exception-handling", error, 4, 1);
      (lit "documentation", suggestion, 5, 5);
      (lit "naming-clarity", warning, 5, 10) ]%Z
  /\ scoreOf (call sampleRandom wildcardAndBareExcept python 0) = Some 66%Z.
Proof. split; vm_compute; reflexivity. Qed.

Example three_imports_three_issues :
  issueSummary (call sampleRandom threeImports java 0)
  = [ (lit "unused-imports", suggestion, 1, 0);
      (lit "unused-imports", suggestion, 2, 1);
      (lit "unused-imports", suggestion, 3, 1);
      (lit "documentation", suggestion, 2, 5);
      (lit "naming-clarity", warning, 2, 10) ]%Z.
Proof. vm_compute. reflexivity. Qed.

Example five_excepts_one_issue :
  issueSummary (call sampleRandom fiveExcepts python 0)
  = [ (lit "exception-handling", error, 1, 0);
      (lit "documentation", suggestion, 1, 5);
      (lit "naming-clarity", warning, 1, 10) ]%Z.
Proof. vm_compute. reflexivity. Qed.

Example column_on_first_line :
  issueSummary (call sampleRandom classAfterTwo java 0)
  = [ (lit "naming-convention", warning, 1, 3);
      (lit "documentation", suggestion, 1, 5);
      (lit "naming-clarity", warning, 1, 10) ]%Z
  /\ specColumn classAfterTwo 2 = 0%Z.
Proof. split; vm_compute; reflexivity. Qed.

Example column_on_second_line :
  issueSummary (call sampleRandom classOnSecondLine java 0)
  = [ (lit "naming-convention", warning, 2, 1);
      (lit "documentation", suggestion, 2, 5);
      (lit "naming-clarity", warning, 2, 10) ]%Z
  /\ specColumn classOnSecondLine 1 = 0%Z.
Proof. split; vm_compute; reflexivity. Qed.

(** ** Strings *)

Lemma split_not_nil (s : jsstring) (sep : code_unit) : split s sep <> [].
Proof.
  destruct s as [|c s]; simpl; [discriminate|].
  destruct (N.eqb c sep); [discriminate|].
  destruct (split s sep); discriminate.
Qed.

Lemma split_length (s : jsstring) :
  length (split s LF) = S (count_occ N.eq_dec s LF).
Proof.
  induction s as [|c s IH]; simpl; [reflexivity|].
  destruct (N.eq_dec c LF) as [->|Hc].
  - rewrite N.eqb_refl. simpl. now rewrite IH.
  - apply N.eqb_neq in Hc. rewrite Hc.
    destruct (split s LF) eqn:E.
    + now apply split_not_nil in E.
    + simpl in *. exact IH.
Qed.

Lemma count_occ_firstn_le (s : jsstring) (n : nat) (c : code_unit) :
  count_occ N.eq_dec (firstn n s) c <= count_occ N.eq_dec s c.
Proof.
  revert n. induction s as [|d s IH]; intros [|n]; simpl; try lia.
  specialize (IH n). destruct (N.eq_dec d c); lia.
Qed.

Lemma last_index_app_other (sep c : code_unit) (s : jsstring) :
  c <> sep -> last_index sep (s ++ [c]) = last_index sep s.
Proof.
  intros Hc. induction s as [|d s IH]; simpl.
  - apply N.eqb_neq in Hc. now rewrite Hc.
  - now rewrite IH.
Qed.

Lemma firstn_S_nth (s : jsstring) (n : nat) :
  n < length s -> firstn (S n) s = firstn n s ++ [nth n s 0%N].
Proof.
  revert n. induction s as [|c s IH]; intros n Hn; simpl in *; [lia|].
  destruct n as [|n]; [reflexivity|].
  simpl. f_equal. apply IH. lia.
Qed.

(** When the code unit at [idx] is not a line break, [lastIndexOf] from
    [idx] finds the line break that precedes [idx]. *)
Lemma lastIndexOf_preceding (code : jsstring) (idx : nat) :
  idx < length code -> nth idx code 0%N <> LF ->
  lastIndexOf code LF idx = precedingLineBreak code idx.
Proof.
  intros Hlt Hc. unfold lastIndexOf, precedingLineBreak.
  rewrite firstn_S_nth by exact Hlt.
  now rewrite last_index_app_other.
Qed.

Lemma last_index_lt (sep : code_unit) (s : jsstring) (k : nat) :
  last_index sep s = Some k -> k < length s /\ nth k s 0%N = sep.
Proof.
  revert k. induction s as [|c s IH]; intros k; simpl; [discriminate|].
  destruct (last_index sep s) as [j|].
  - intros [= <-]. destruct (IH j eq_refl). split; [lia|assumption].
  - destruct (N.eqb c sep) eqn:E; [|discriminate].
    intros [= <-]. apply N.eqb_eq in E. split; [lia|assumption].
Qed.

(** ** Running the analyzer *)

Section Run.

Variable random : nat -> double01.
Variable code : jsstring.

Lemma ruleIssue_run (rule : Rule.t) (idx : nat) (st : Store) :
  ruleIssue random code rule (Some idx) st
  = Normal (tt, mkStore (S (drawn st))
                  (issuesArray st ++ [issueAt (random (drawn st)) code rule idx])).
Proof.
  unfold ruleIssue, bind, generateRandomId, Math_random, push, issueAt. simpl.
  destruct idx; reflexivity.
Qed.

Lemma forEach_ruleIssue_run (rule : Rule.t) (ms : list Match) (st : Store) :
  forEach ms (fun m => ruleIssue random code rule (Some (index m))) st
  = Normal (tt, mkStore (drawn st + length ms)
                  (issuesArray st
                   ++ issuesAt random code rule (drawn st) (map index ms))).
Proof.
  revert st. induction ms as [|m ms IH]; intros [d l]; simpl.
  - unfold ret. now rewrite Nat.add_0_r, app_nil_r.
  - unfold bind at 1. rewrite ruleIssue_run. rewrite IH. simpl.
    rewrite <- app_assoc. simpl. do 3 f_equal. lia.
Qed.

Lemma applyRule_run (rule : Rule.t) (st : Store) :
  applyRule random code rule st
  = Normal (tt, mkStore (drawn st + length (ruleMatches code rule))
                  (issuesArray st ++ ruleIssues random code rule (drawn st))).
Proof.
  unfold applyRule, ruleIssues, ruleMatches, matchAll, test, String_match.
  destruct (global (Rule.pattern rule)) eqn:G.
  - unfold bind at 1, lift. apply forEach_ruleIssue_run.
  - destruct (exec (Rule.pattern rule) code) as [m|]; simpl.
    + rewrite ruleIssue_run. do 3 f_equal. lia.
    + unfold ret. destruct st; simpl. now rewrite Nat.add_0_r, app_nil_r.
Qed.

Lemma ruleIssues_length (rule : Rule.t) (d : nat) :
  length (ruleIssues random code rule d) = length (ruleMatches code rule).
Proof.
  unfold ruleIssues. generalize (ruleMatches code rule) as ms. intros ms.
  revert d. induction ms; intros d; simpl; [reflexivity|]. now rewrite IHms.
Qed.

Lemma forEach_applyRule_run (rules : list Rule.t) (st : Store) :
  forEach rules (applyRule random code) st
  = Normal (tt, mkStore
                  (drawn st + length (catalogIssues random code rules (drawn st)))
                  (issuesArray st ++ catalogIssues random code rules (drawn st))).
Proof.
  revert st. induction rules as [|rule rules IH]; intros [d l]; simpl.
  - unfold ret. now rewrite Nat.add_0_r, app_nil_r.
  - unfold bind at 1. rewrite applyRule_run. rewrite IH. simpl.
    rewrite length_app, ruleIssues_length, <- app_assoc.
    do 3 f_equal. lia.
Qed.

Lemma Matcher_run (language : jsstring) (seed : nat) :
  Matcher random code language seed
  = Normal (catalogIssues random code (rulesFor language) seed).
Proof.
  unfold Matcher. now rewrite forEach_applyRule_run.
Qed.

End Run.

(** What a call returns, field by field. *)
Lemma call_run (random : nat -> double01) (code language : jsstring) (seed : nat) :
  let catalog := catalogIssues random code (rulesFor language) seed in
  let d := seed + length catalog in
  let n := N.of_nat (length (split code LF)) in
  exists res,
    call random code language seed = Normal res
    /\ issues res
       = catalog
         ++ [ Issue.mk (random d) suggestion (floor_mul (random (S d)) n + 1) 5
                (lit "Consider adding documentation comments")
                (lit "documentation") low;
              Issue.mk (random (S (S d))) warning
                (floor_mul (random (S (S (S d)))) n + 1) 10
                (lit "Variable naming could be more descriptive")
                (lit "naming-clarity") medium ]
    /\ score res
       = Z.max 0 (Z.min 100 (100 - countType error (issues res) * 15
                             - countType warning (issues res) * 8
                             - countType suggestion (issues res) * 3))
    /\ linesOfCode (metrics res)
       = Z.of_nat (length (filter (fun line =>
                             truthy (trim line)
                             && negb (startsWith (trim line) (lit "//")))
                     (split code LF)))
    /\ cyclomaticComplexity (metrics res)
       = Z.max 1 (linesOfCode (metrics res) / 10
                  + match String_match code branchKeywords with
                    | Some v => Z.of_nat (length_of v)
                    | None => 0
                    end)
    /\ maintainabilityIndex (metrics res)
       = Z.max 10 (100 - Z.of_nat (length (issues res)) * 5
                   - cyclomaticComplexity (metrics res) / 2)
    /\ suggestions res
       = firstn (Z.to_nat (floor_mul (random (S (S (S (S (S d)))))) 3 + 2))
           suggestionPool.
Proof.
  intros catalog d n. unfold call, analyzeCode.
  unfold bind at 1. rewrite forEach_applyRule_run.
  cbn [drawn issuesArray app].
  fold catalog. fold d.
  unfold bind, generateRandomId, Math_random, readIssues, ret, push, forEach.
  cbn [drawn issuesArray].
  eexists. split; [reflexivity|].
  cbn [issues score metrics suggestions linesOfCode cyclomaticComplexity
       maintainabilityIndex drawn issuesArray].
  rewrite <- !app_assoc. cbn [app].
  repeat split; reflexivity.
Qed.

(** ** Rounding *)

(** Rounding to 53 bits adds at most half a unit in the last place, which is
    at most [p / 2^53]. *)
Lemma round53_bound (p : N) : (round53 p * 2 ^ 53 <= p * (2 ^ 53 + 1))%N.
Proof.
  unfold round53. destruct (N.ltb_spec p (2 ^ 53)) as [Hlt|Hge]; [lia|].
  assert (Hlog : (53 <= N.log2 p)%N).
  { change 53%N with (N.log2 (2 ^ 53)). now apply N.log2_le_mono. }
  set (shift := (N.log2 p - 52)%N).
  assert (Hshift : (shift = (shift - 1) + 1)%N) by (unfold shift; lia).
  set (h := (2 ^ (shift - 1))%N).
  assert (Hpow : (2 ^ shift = 2 * h)%N).
  { rewrite Hshift at 1. rewrite N.pow_add_r. unfold h. simpl (2 ^ 1)%N. lia. }
  assert (Hh : (h * 2 ^ 53 <= p)%N).
  { unfold h. rewrite <- N.pow_add_r.
    replace (shift - 1 + 53)%N with (N.log2 p) by (unfold shift; lia).
    apply N.log2_spec. lia. }
  rewrite Hpow.
  assert (Hhpos : (0 < h)%N) by (unfold h; apply N.neq_0_lt_0, N.pow_nonzero; lia).
  pose proof (N.div_mod p (2 * h) ltac:(lia)) as Hdm.
  pose proof (N.mod_lt p (2 * h) ltac:(lia)) as Hml.
  set (q := (p / (2 * h))%N) in *. set (rest := (p mod (2 * h))%N) in *.
  assert (Hr : ((if (h <? rest) || (rest =? h) && N.odd q then q + 1 else q)
                * (2 * h) <= p + h)%N).
  { destruct ((h <? rest) || (rest =? h) && N.odd q)%N eqn:E.
    - assert (h <= rest)%N.
      { apply orb_true_iff in E. destruct E as [E|E].
        - apply N.ltb_lt in E. lia.
        - apply andb_true_iff in E. destruct E as [E _].
          apply N.eqb_eq in E. lia. }
      nia.
    - nia. }
  nia.
Qed.

(** [Math.floor(x * n)] is one of 0, ..., n - 1. *)
Lemma floor_mul_range (x : double01) (n : N) :
  (0 < n)%N -> (0 <= floor_mul x n < Z.of_N n)%Z.
Proof.
  intros Hn. unfold floor_mul. split; [apply N2Z.is_nonneg|].
  apply N2Z.inj_lt.
  destruct x as [m e H]. simpl.
  apply andb_true_iff in H. destruct H as [H He'].
  apply andb_true_iff in H. destruct H as [Hm He].
  apply N.ltb_lt in Hm. apply N.leb_le in He.
  apply N.Div0.div_lt_upper_bound.
  pose proof (round53_bound (m * n)) as Hb.
  assert (H53 : (2 ^ 53 <= 2 ^ e)%N) by (apply N.pow_le_mono_r; lia).
  set (C := (2 ^ 53)%N) in *.
  assert (HC : C = 9007199254740992%N) by reflexivity.
  assert (Hm1 : (m * (C + 1) < C * C)%N) by (rewrite HC in *; lia).
  assert (Hmn : (m * n * (C + 1) < 2 ^ e * n * C)%N).
  { apply N.lt_le_trans with (n * (C * C))%N.
    - replace (m * n * (C + 1))%N with (n * (m * (C + 1)))%N by lia.
      apply N.mul_lt_mono_pos_l; [exact Hn | exact Hm1].
    - replace (2 ^ e * n * C)%N with (n * (2 ^ e * C))%N by lia.
      apply N.mul_le_mono_l. apply N.mul_le_mono_r. exact H53. }
  assert (Hlt : (round53 (m * n) * C < (2 ^ e * n) * C)%N).
  { eapply N.le_lt_trans; [exact Hb | exact Hmn]. }
  apply N.mul_lt_mono_pos_r in Hlt; [exact Hlt | rewrite HC; lia].
Qed.

(** ** Issues of the catalog *)

Lemma In_issuesAt (random : nat -> double01) (code : jsstring) (rule : Rule.t)
    (idxs : list nat) (d : nat) (i : Issue.t) :
  In i (issuesAt random code rule d idxs) ->
  exists k idx, In idx idxs /\ i = issueAt (random k) code rule idx.
Proof.
  revert d. induction idxs as [|idx idxs IH]; intros d; simpl; [tauto|].
  intros [<-|H].
  - exists d, idx. auto.
  - destruct (IH _ H) as (k & idx' & Hin & ->). exists k, idx'. auto.
Qed.

Lemma In_catalogIssues (random : nat -> double01) (code : jsstring)
    (rules : list Rule.t) (d : nat) (i : Issue.t) :
  In i (catalogIssues random code rules d) ->
  exists rule m k,
    In rule rules /\ In m (ruleMatches code rule)
    /\ i = issueAt (random k) code rule (index m).
Proof.
  revert d. induction rules as [|rule rules IH]; intros d; simpl; [tauto|].
  rewrite in_app_iff. intros [H|H].
  - apply In_issuesAt in H. destruct H as (k & idx & Hin & ->).
    apply in_map_iff in Hin. destruct Hin as (m & <- & Hm).
    exists rule, m, k. auto.
  - destruct (IH _ H) as (rule' & m & k & Hr & Hm & ->).
    exists rule', m, k. auto.
Qed.

Lemma issueAt_line_range (x : double01) (code : jsstring) (rule : Rule.t)
    (idx : nat) :
  (1 <= Issue.line (issueAt x code rule idx) <= Z.of_nat (lineCount code))%Z.
Proof.
  unfold issueAt, lineCount, substring0. simpl. rewrite split_length.
  pose proof (count_occ_firstn_le code idx LF). lia.
Qed.

Lemma jsstring_eqb_eq (s t : jsstring) : jsstring_eqb s t = true <-> s = t.
Proof.
  revert t. induction s as [|c s IH]; intros [|d t]; simpl;
    try (split; [discriminate|discriminate]); [tauto|].
  rewrite andb_true_iff, N.eqb_eq, IH. split.
  - intros [-> ->]. reflexivity.
  - intros [= -> ->]. auto.
Qed.

Lemma countType_app (t : IssueType) (l l' : list Issue.t) :
  countType t (l ++ l') = (countType t l + countType t l')%Z.
Proof.
  unfold countType. rewrite filter_app, length_app. lia.
Qed.

Lemma countType_nonneg (t : IssueType) (l : list Issue.t) : (0 <= countType t l)%Z.
Proof. unfold countType. lia. Qed.

(** ** The score *)

(** C2: the score of the result is
    clamp(100 - 15 errors - 8 warnings - 3 suggestions, 0, 100), the counts
    being taken over the type of every issue of the result, and it lies in
    [0, 100]. *)
Theorem score_is_clamped_penalty (random : nat -> double01)
    (code language : jsstring) (seed : nat) :
  exists res,
    call random code language seed = Normal res
    /\ score res
       = clamp (100 - 15 * countType error (issues res)
                - 8 * countType warning (issues res)
                - 3 * countType suggestion (issues res)) 0 100
    /\ (0 <= score res <= 100)%Z.
Proof.
  destruct (call_run random code language seed)
    as (res & Hcall & _ & Hscore & _).
  exists res. split; [exact Hcall|]. rewrite Hscore. unfold clamp. lia.
Qed.

(** C10: two filler issues end the list of issues, a suggestion with rule
    [documentation] then a warning with rule [naming-clarity], after the
    issues of the Matcher; the list has at least 2 elements and the score
    is at most 89. *)
Theorem two_fillers_cap_score (random : nat -> double01)
    (code language : jsstring) (seed : nat) :
  exists res catalog f1 f2,
    call random code language seed = Normal res
    /\ Matcher random code language seed = Normal catalog
    /\ issues res = catalog ++ [f1; f2]
    /\ Issue.type f1 = suggestion /\ Issue.rule f1 = lit "documentation"
    /\ Issue.type f2 = warning /\ Issue.rule f2 = lit "naming-clarity"
    /\ 2 <= length (issues res)
    /\ (score res <= 89)%Z.
Proof.
  destruct (call_run random code language seed)
    as (res & Hcall & Hissues & Hscore & _).
  eexists res, _, _, _. split; [exact Hcall|].
  split; [apply Matcher_run|].
  split; [exact Hissues|].
  repeat (split; [reflexivity|]).
  split.
  - rewrite Hissues, length_app. simpl. lia.
  - set (catalog := catalogIssues _ _ _ _) in Hissues.
    set (filler := _ :: _ :: nil) in Hissues.
    rewrite Hscore, Hissues, !countType_app.
    pose proof (countType_nonneg error catalog).
    pose proof (countType_nonneg warning catalog).
    pose proof (countType_nonneg suggestion catalog).
    change (countType error filler) with 0%Z.
    change (countType warning filler) with 1%Z.
    change (countType suggestion filler) with 1%Z.
    lia.
Qed.

(** ** Empty text *)

(** C6: for the empty text, [linesOfCode] is 0 and [cyclomaticComplexity]
    is 1. *)
Theorem empty_text_metrics (random : nat -> double01) (language : jsstring)
    (seed : nat) :
  exists res,
    call random [] language seed = Normal res
    /\ linesOfCode (metrics res) = 0%Z
    /\ cyclomaticComplexity (metrics res) = 1%Z.
Proof.
  destruct (call_run random [] language seed)
    as (res & Hcall & _ & _ & Hloc & Hcc & _).
  exists res. split; [exact Hcall|].
  rewrite Hcc, Hloc. split; reflexivity.
Qed.

(** ** Suggestions *)

(** C8: the suggestions are the first [k] strings of the pool, in its
    order, for some [k] from 2 to 4, which is their number. *)
Theorem suggestions_prefix_of_pool (random : nat -> double01)
    (code language : jsstring) (seed : nat) :
  exists res k,
    call random code language seed = Normal res
    /\ 2 <= k <= 4
    /\ suggestions res = firstn k suggestionPool
    /\ length (suggestions res) = k
    /\ length suggestionPool = 5.
Proof.
  destruct (call_run random code language seed)
    as (res & Hcall & _ & _ & _ & _ & _ & Hsug).
  eexists res, _. split; [exact Hcall|].
  match type of Hsug with context [floor_mul ?x 3] =>
    pose proof (floor_mul_range x 3 eq_refl) as Hr end.
  split; [|split; [exact Hsug|split; [|reflexivity]]].
  - simpl in Hr. lia.
  - rewrite Hsug, length_firstn. simpl in *. lia.
Qed.

(** ** Completion *)

(** C9: a call returns a result, for every text, every language string and
    every sequence of draws; it does not throw. *)
Theorem analyzeCode_never_throws (random : nat -> double01)
    (code language : jsstring) (seed : nat) :
  exists res, call random code language seed = Normal res.
Proof.
  destruct (call_run random code language seed) as (res & Hcall & _).
  exists res. exact Hcall.
Qed.

(** ** Lines *)

(** C5: the line of every issue of the result, from the catalog or filler,
    lies between 1 and the number of lines of the text. *)
Theorem issue_lines_within_text (random : nat -> double01)
    (code language : jsstring) (seed : nat) :
  exists res,
    call random code language seed = Normal res
    /\ Forall (fun i => (1 <= Issue.line i <= Z.of_nat (lineCount code))%Z)
         (issues res)
    /\ lineCount code = length (split code LF).
Proof.
  destruct (call_run random code language seed)
    as (res & Hcall & Hissues & _).
  exists res. split; [exact Hcall|]. split; [|unfold lineCount; now rewrite split_length].
  rewrite Hissues. apply Forall_app. split.
  - apply Forall_forall. intros i Hi.
    apply In_catalogIssues in Hi. destruct Hi as (rule & m & k & _ & _ & ->).
    apply issueAt_line_range.
  - assert (Hn : (0 < N.of_nat (length (split code LF)))%N).
    { rewrite split_length. lia. }
    assert (Hc : Z.of_N (N.of_nat (length (split code LF)))
                 = Z.of_nat (lineCount code)).
    { unfold lineCount. rewrite split_length. lia. }
    repeat constructor; cbn [Issue.line];
      match goal with |- context [floor_mul ?x ?n] =>
        pose proof (floor_mul_range x _ Hn) end; lia.
Qed.

(** ** Languages *)

(** C7: for a language other than the three of the [switch], no rule is
    selected, the call returns, the Matcher produces no issue, and the
    issues of the result are the two fillers. *)
Theorem unrecognized_language_no_catalog_issue (random : nat -> double01)
    (code language : jsstring) (seed : nat) :
  language <> lit "java" -> language <> lit "python" -> language <> lit "cpp" ->
  rulesFor language = []
  /\ exists res f1 f2,
       call random code language seed = Normal res
       /\ Matcher random code language seed = Normal []
       /\ issues res = [f1; f2]
       /\ Issue.rule f1 = lit "documentation"
       /\ Issue.rule f2 = lit "naming-clarity".
Proof.
  intros Hj Hp Hc.
  assert (Hrules : rulesFor language = []).
  { unfold rulesFor.
    destruct (jsstring_eqb language (lit "java")) eqn:E1;
      [apply jsstring_eqb_eq in E1; contradiction|].
    destruct (jsstring_eqb language (lit "python")) eqn:E2;
      [apply jsstring_eqb_eq in E2; contradiction|].
    destruct (jsstring_eqb language (lit "cpp")) eqn:E3;
      [apply jsstring_eqb_eq in E3; contradiction|].
    reflexivity. }
  split; [exact Hrules|].
  destruct (call_run random code language seed)
    as (res & Hcall & Hissues & _).
  rewrite Hrules in Hissues. simpl in Hissues.
  eexists res, _, _. split; [exact Hcall|].
  split; [rewrite Matcher_run, Hrules; reflexivity|].
  split; [exact Hissues|]. split; reflexivity.
Qed.

Lemma unrecognized_language_witness :
  (lit "rust" <> lit "java" /\ lit "rust" <> lit "python"
   /\ lit "rust" <> lit "cpp")
  /\ rulesFor (lit "rust") = []
  /\ exists res f1 f2,
       call sampleRandom (lit "class a") (lit "rust") 0 = Normal res
       /\ Matcher sampleRandom (lit "class a") (lit "rust") 0 = Normal []
       /\ issues res = [f1; f2]
       /\ Issue.rule f1 = lit "documentation"
       /\ Issue.rule f2 = lit "naming-clarity".
Proof.
  split.
  - repeat split; simpl; discriminate.
  - apply unrecognized_language_no_catalog_issue; simpl; discriminate.
Defined.

(** ** The matcher and the words of a pattern *)

Lemma firstn_plus (A : Type) (j m : nat) (s : list A) :
  firstn (j + m) s = firstn j s ++ firstn m (skipn j s).
Proof.
  revert s. induction j as [|j IH]; intros s; simpl; [reflexivity|].
  destruct s as [|c s]; simpl.
  - now rewrite firstn_nil.
  - now rewrite IH.
Qed.

Section Matching.

Variable a : Atom.
Variable k : jsstring -> option nat.

Lemma repeatMatcher_sound (s : jsstring) (n : nat) :
  repeatMatcher a k s = Some n ->
  exists j m, n = j + m /\ j <= length s
              /\ Forall (fun c => atom_matches a c = true) (firstn j s) /\ k (skipn j s) = Some m.
Proof.
  revert n. induction s as [|c s IH]; intros n; simpl.
  - intros H. exists 0, n. simpl. auto.
  - destruct (atom_matches a c) eqn:E.
    + destruct (repeatMatcher a k s) as [n'|] eqn:R.
      * intros [= <-].
        destruct (IH n' eq_refl) as (j & m & -> & Hj & HF & Hk).
        exists (S j), m. simpl. repeat split; auto. lia.
      * intros H. exists 0, n. simpl. repeat split; auto. lia.
    + intros H. exists 0, n. simpl. repeat split; auto. lia.
Qed.

Lemma repeatMatcher_continues (s : jsstring) :
  k s <> None -> repeatMatcher a k s <> None.
Proof.
  destruct s as [|c s]; simpl; [auto|].
  intros H. destruct (atom_matches a c); [|exact H].
  destruct (repeatMatcher a k s); [discriminate|exact H].
Qed.

Lemma repeatMatcher_complete (u s : jsstring) :
  Forall (fun c => atom_matches a c = true) u -> k s <> None -> repeatMatcher a k (u ++ s) <> None.
Proof.
  intros HF Hk. induction HF as [|c u Hc HF IH]; simpl.
  - now apply repeatMatcher_continues.
  - simpl in Hc. rewrite Hc.
    destruct (repeatMatcher a k (u ++ s)); [discriminate|contradiction].
Qed.

End Matching.

Lemma matchAlternative_sound (ts : Alternative) (s : jsstring) (n : nat) :
  matchAlternative ts s = Some n ->
  n <= length s /\ inAlternative ts (firstn n s).
Proof.
  revert s n. induction ts as [|[a q] ts IH]; intros s n; simpl.
  - intros [= <-]. split; [lia|reflexivity].
  - destruct q.
    + destruct s as [|c s]; [discriminate|].
      destruct (atom_matches a c) eqn:E; [|discriminate].
      destruct (matchAlternative ts s) as [n'|] eqn:M; [|discriminate].
      intros [= <-]. destruct (IH _ _ M) as [Hn Hin].
      split; [simpl; lia|]. exists c, (firstn n' s). auto.
    + intros H. apply repeatMatcher_sound in H.
      destruct H as (j & m & -> & Hj & HF & Hk).
      apply IH in Hk. destruct Hk as [Hm Hin]. rewrite length_skipn in Hm.
      split; [lia|].
      exists (firstn j s), (firstn m (skipn j s)).
      split; [apply firstn_plus|auto].
    + destruct s as [|c s]; [discriminate|].
      destruct (atom_matches a c) eqn:E; [|discriminate].
      destruct (repeatMatcher a (matchAlternative ts) s) as [n'|] eqn:R;
        [|discriminate].
      intros [= <-]. apply repeatMatcher_sound in R.
      destruct R as (j & m & -> & Hj & HF & Hk).
      apply IH in Hk. destruct Hk as [Hm Hin]. rewrite length_skipn in Hm.
      split; [simpl; lia|].
      exists c, (firstn j s), (firstn m (skipn j s)).
      split; [simpl; f_equal; apply firstn_plus|auto].
Qed.

Lemma matchAlternative_complete (ts : Alternative) (w rest : jsstring) :
  inAlternative ts w -> matchAlternative ts (w ++ rest) <> None.
Proof.
  revert w. induction ts as [|[a q] ts IH]; intros w; simpl.
  - discriminate.
  - destruct q.
    + intros (c & v & -> & Hc & Hv). simpl. rewrite Hc.
      specialize (IH _ Hv). destruct (matchAlternative ts (v ++ rest));
        [discriminate|contradiction].
    + intros (u & v & -> & Hu & Hv). rewrite <- app_assoc.
      apply repeatMatcher_complete; auto.
    + intros (c & u & v & -> & Hc & Hu & Hv). simpl. rewrite Hc.
      rewrite <- app_assoc.
      pose proof (repeatMatcher_complete a (matchAlternative ts) u (v ++ rest)
                    Hu (IH _ Hv)) as H.
      destruct (repeatMatcher a (matchAlternative ts) (u ++ v ++ rest));
        [discriminate|contradiction].
Qed.

Lemma matchHere_sound (r : RegExp) (s : jsstring) (n : nat) :
  matchHere r s = Some n -> n <= length s /\ inLanguage r (firstn n s).
Proof.
  unfold matchHere, inLanguage. induction (disjunction r) as [|ts alts IH]; simpl.
  - discriminate.
  - destruct (matchAlternative ts s) as [n'|] eqn:M.
    + intros [= <-]. apply matchAlternative_sound in M. destruct M.
      split; [assumption|]. exists ts. auto.
    + intros H. destruct (IH H) as (Hn & ts' & Hin & Hw).
      split; [assumption|]. exists ts'. auto.
Qed.

Lemma matchHere_complete (r : RegExp) (w rest : jsstring) :
  inLanguage r w -> matchHere r (w ++ rest) <> None.
Proof.
  unfold matchHere, inLanguage. intros (ts & Hin & Hw).
  induction (disjunction r) as [|ts' alts IH]; simpl; [contradiction|].
  destruct (matchAlternative ts' (w ++ rest)) eqn:M; [discriminate|].
  destruct Hin as [->|Hin]; [|auto].
  now apply matchAlternative_complete with (rest := rest) in Hw.
Qed.

(** A match found at an offset is an occurrence, and the matcher finds a
    match wherever an occurrence starts. *)
Lemma matchHere_occurrence (r : RegExp) (code : jsstring) (i n : nat) :
  i <= length code -> matchHere r (skipn i code) = Some n ->
  occurrence r code (mkMatch i n).
Proof.
  intros Hi H. apply matchHere_sound in H. destruct H as [Hn Hw].
  rewrite length_skipn in Hn. split; simpl; [lia|exact Hw].
Qed.

Lemma occurrence_matchHere (r : RegExp) (code : jsstring) (m : Match) :
  occurrence r code m -> matchHere r (skipn (index m) code) <> None.
Proof.
  intros [_ Hw]. unfold slice in Hw.
  rewrite <- (firstn_skipn (matchLength m) (skipn (index m) code)).
  now apply matchHere_complete.
Qed.

Lemma execFrom_Some (r : RegExp) (s : jsstring) (pos : nat) (m : Match) :
  execFrom r s pos = Some m ->
  exists i, index m = pos + i /\ i <= length s
            /\ matchHere r (skipn i s) = Some (matchLength m).
Proof.
  revert pos. induction s as [|c s IH]; intros pos; simpl.
  - destruct (matchHere r []) eqn:M; [|discriminate].
    intros [= <-]. exists 0. simpl. auto.
  - destruct (matchHere r (c :: s)) eqn:M.
    + intros [= <-]. exists 0. simpl. repeat split; auto; lia.
    + intros H. destruct (IH _ H) as (i & Hi & Hl & Hm).
      exists (S i). simpl. repeat split; auto; lia.
Qed.

Lemma execFrom_None (r : RegExp) (s : jsstring) (pos i : nat) :
  execFrom r s pos = None -> matchHere r (skipn i s) = None.
Proof.
  revert pos i. induction s as [|c s IH]; intros pos i; simpl.
  - destruct (matchHere r []) eqn:M; [discriminate|].
    intros _. now rewrite skipn_nil.
  - destruct (matchHere r (c :: s)) eqn:M; [discriminate|].
    intros H. destruct i as [|i]; simpl; [exact M|]. eapply IH; eassumption.
Qed.

Lemma exec_occurrence (r : RegExp) (code : jsstring) (m : Match) :
  exec r code = Some m -> occurrence r code m.
Proof.
  intros H. apply execFrom_Some in H. destruct H as (i & Hi & Hl & Hm).
  simpl in Hi. subst i. destruct m as [i n]. now apply matchHere_occurrence.
Qed.

Lemma exec_None (r : RegExp) (code : jsstring) (m : Match) :
  exec r code = None -> ~ occurrence r code m.
Proof.
  intros H Hocc. apply occurrence_matchHere in Hocc. apply Hocc.
  eapply execFrom_None; eassumption.
Qed.

(** ** The global search *)

Lemma globalMatches_spec (r : RegExp) (s : jsstring) (pos skip : nat) (m : Match) :
  In m (globalMatches r s pos skip) ->
  pos + skip <= index m
  /\ index m - pos <= length s
  /\ matchHere r (skipn (index m - pos) s) = Some (matchLength m).
Proof.
  revert pos skip. induction s as [|c s IH]; intros pos skip.
  - destruct skip; simpl; [|tauto].
    destruct (matchHere r []) as [n|] eqn:M; simpl; [|tauto].
    intros [<-|[]]. simpl. rewrite Nat.sub_diag. simpl. repeat split; auto; lia.
  - destruct skip as [|k]; simpl.
    + destruct (matchHere r (c :: s)) as [n|] eqn:M.
      * intros [<-|H].
        -- simpl. rewrite Nat.sub_diag. simpl. repeat split; auto; lia.
        -- destruct (IH _ _ H) as (Hle & Hlen & Hm).
           replace (index m - pos) with (S (index m - S pos)) by lia.
           simpl. repeat split; auto; lia.
      * intros H. destruct (IH _ _ H) as (Hle & Hlen & Hm).
        replace (index m - pos) with (S (index m - S pos)) by lia.
        simpl. repeat split; auto; lia.
    + intros H. destruct (IH _ _ H) as (Hle & Hlen & Hm).
      replace (index m - pos) with (S (index m - S pos)) by lia.
      simpl. repeat split; auto; lia.
Qed.

Lemma globalMatches_occurrence (r : RegExp) (code : jsstring) :
  Forall (occurrence r code) (globalMatches r code 0 0).
Proof.
  apply Forall_forall. intros [i n] H. apply globalMatches_spec in H.
  simpl in H. rewrite Nat.sub_0_r in H. destruct H as (_ & Hi & Hm).
  now apply matchHere_occurrence.
Qed.

Lemma globalMatches_disjoint (r : RegExp) (s : jsstring) (pos skip : nat) :
  ForallOrdPairs disjoint (globalMatches r s pos skip).
Proof.
  revert pos skip. induction s as [|c s IH]; intros pos skip.
  - destruct skip; simpl; [|constructor].
    destruct (matchHere r []); repeat constructor.
  - destruct skip as [|k]; simpl; [|apply IH].
    destruct (matchHere r (c :: s)) as [n|]; [|apply IH].
    constructor; [|apply IH].
    apply Forall_forall. intros m H. apply globalMatches_spec in H.
    left. simpl. lia.
Qed.

(** The global search is [exec] repeated: a match found from the current
    offset, then the search resumed at the end of the match, one code unit
    further when the match is empty. *)
Lemma globalMatches_skip (r : RegExp) (s : jsstring) (pos skip : nat) :
  skip <= length s ->
  globalMatches r s pos skip = globalMatches r (skipn skip s) (pos + skip) 0.
Proof.
  revert s pos. induction skip as [|k IH]; intros s pos Hk.
  - now rewrite Nat.add_0_r.
  - destruct s as [|c s]; simpl in Hk; [lia|].
    simpl. rewrite IH by lia. f_equal. lia.
Qed.

Lemma globalMatches_resume (r : RegExp) (s : jsstring) (pos : nat) :
  globalMatches r s pos 0
  = match execFrom r s pos with
    | None => []
    | Some m =>
        m :: globalMatches r (skipn (index m - pos) s) (index m)
               (Nat.max 1 (matchLength m))
    end.
Proof.
  revert pos. induction s as [|c s IH]; intros pos; simpl.
  - destruct (matchHere r []) as [n|]; [|reflexivity].
    simpl. rewrite Nat.sub_diag. simpl. now destruct n.
  - destruct (matchHere r (c :: s)) as [n|] eqn:M.
    + simpl. rewrite Nat.sub_diag. simpl. now destruct n.
    + rewrite IH. destruct (execFrom r s (S pos)) as [m|] eqn:E; [|reflexivity].
      apply execFrom_Some in E. destruct E as (i & Hi & _).
      replace (index m - pos) with (S (index m - S pos)) by lia.
      reflexivity.
Qed.

(** ** Patterns whose words end at their only terminator *)

Lemma terminatedBy_sound (t : code_unit) (ts : Alternative) (w : jsstring) :
  terminatedBy t ts = true -> inAlternative ts w ->
  exists u, w = u ++ [t] /\ ~ In t u.
Proof.
  revert w. induction ts as [|[a q] ts IH]; intros w; [discriminate|].
  destruct ts as [|t2 ts].
  - simpl. destruct a; try discriminate. destruct q; try discriminate.
    intros E (c' & v & -> & Hc & ->). simpl in Hc.
    apply N.eqb_eq in E. apply N.eqb_eq in Hc. subst.
    exists []. auto.
  - set (ts2 := t2 :: ts) in *. intros E.
    assert (E' : negb (atom_matches a t) && terminatedBy t ts2 = true) by exact E.
    apply andb_true_iff in E'. destruct E' as [Ha Ht].
    apply negb_true_iff in Ha.
    assert (Hne : forall c, atom_matches a c = true -> t <> c).
    { intros c Hc ->. congruence. }
    assert (Hall : forall u, Forall (fun c => atom_matches a c = true) u -> ~ In t u).
    { intros u Hu Hin. rewrite Forall_forall in Hu. apply Hu in Hin. congruence. }
    destruct q; cbn [inAlternative].
    + intros (c & v & -> & Hc & Hv).
      destruct (IH _ Ht Hv) as (u & -> & Hu).
      exists (c :: u). split; [reflexivity|].
      intros [H|H]; [now apply (Hne c Hc)|contradiction].
    + intros (u0 & v & -> & Hu0 & Hv).
      destruct (IH _ Ht Hv) as (u & -> & Hu).
      exists (u0 ++ u). split; [now rewrite app_assoc|].
      rewrite in_app_iff. intros [H|H]; [now apply (Hall u0)|contradiction].
    + intros (c & u0 & v & -> & Hc & Hu0 & Hv).
      destruct (IH _ Ht Hv) as (u & -> & Hu).
      exists (c :: u0 ++ u). split; [simpl; now rewrite app_assoc|].
      simpl. rewrite in_app_iff.
      intros [H|[H|H]];
        [now apply (Hne c Hc)|now apply (Hall u0)|contradiction].
Qed.

Lemma terminatedBy_terminated (r : RegExp) (t : code_unit) :
  forallb (terminatedBy t) (disjunction r) = true -> terminated r t.
Proof.
  intros H w (ts & Hin & Hw). rewrite forallb_forall in H.
  eapply terminatedBy_sound; eauto.
Qed.

Lemma first_terminator_unique (t : code_unit) (u u' r r' : jsstring) :
  ~ In t u -> ~ In t u' -> u ++ t :: r = u' ++ t :: r' -> u = u'.
Proof.
  revert u'. induction u as [|c u IH]; intros [|c' u'] Hu Hu'; simpl in *.
  - reflexivity.
  - intros [= <- _]. tauto.
  - intros [= -> _]. tauto.
  - intros [= <- H]. f_equal. apply IH with (u' := u'); tauto.
Qed.

Lemma In_skipn (A : Type) (x : A) (n : nat) (l : list A) :
  In x (skipn n l) -> In x l.
Proof.
  intros H. rewrite <- (firstn_skipn n l). apply in_or_app. now right.
Qed.

Section Terminated.

Variable r : RegExp.
Variable t : code_unit.
Hypothesis Hterm : terminated r t.

Lemma terminated_nonempty (w : jsstring) : inLanguage r w -> 1 <= length w.
Proof.
  intros H. destruct (Hterm _ H) as (u & -> & _). rewrite length_app. simpl. lia.
Qed.

(** Two occurrences that overlap, of which the first starts first, end at
    the same offset. *)
Lemma overlapping_same_end (s : jsstring) (n i l : nat) :
  n <= length s -> inLanguage r (firstn n s) ->
  i + l <= length s -> inLanguage r (slice s i l) ->
  i < n -> i + l = n.
Proof.
  intros Hn H1 Hl H2 Hi.
  destruct (Hterm _ H1) as (u1 & E1 & Hu1).
  destruct (Hterm _ H2) as (u2 & E2 & Hu2).
  assert (L1 : length u1 + 1 = n).
  { apply (f_equal (@length _)) in E1.
    rewrite length_firstn, length_app in E1. simpl in E1. lia. }
  assert (L2 : length u2 + 1 = l).
  { apply (f_equal (@length _)) in E2. unfold slice in E2.
    rewrite length_firstn, length_skipn, length_app in E2. simpl in E2. lia. }
  assert (S1 : s = u1 ++ t :: skipn n s).
  { rewrite <- (firstn_skipn n s) at 1. rewrite E1, <- app_assoc. reflexivity. }
  assert (S2 : skipn i s = u2 ++ t :: skipn l (skipn i s)).
  { rewrite <- (firstn_skipn l (skipn i s)) at 1. unfold slice in E2.
    rewrite E2, <- app_assoc. reflexivity. }
  rewrite S1 in S2 at 1. rewrite skipn_app in S2.
  replace (i - length u1) with 0 in S2 by lia. simpl in S2.
  apply first_terminator_unique in S2; auto.
  - apply (f_equal (@length _)) in S2. rewrite length_skipn in S2. lia.
  - intros H. apply Hu1. eapply In_skipn; eassumption.
Qed.

(** Every occurrence ends where a match of the global search ends. *)
Lemma globalMatches_covers (s : jsstring) (pos skip i l : nat) :
  skip <= i -> i + l <= length s -> inLanguage r (slice s i l) ->
  exists m, In m (globalMatches r s pos skip) /\ endOf m = pos + i + l.
Proof.
  revert pos skip i l. induction s as [|c s IH]; intros pos skip i l Hs Hl Hw.
  - apply terminated_nonempty in Hw. unfold slice in Hw.
    rewrite length_firstn in Hw. simpl in Hl. lia.
  - destruct skip as [|k].
    + simpl. destruct (matchHere r (c :: s)) as [n|] eqn:M.
      * apply matchHere_sound in M. destruct M as [Hn Hfst].
        destruct (lt_dec i n) as [Hlt|Hge].
        -- exists (mkMatch pos n). split; [now left|].
           unfold endOf. simpl.
           pose proof (overlapping_same_end (c :: s) n i l Hn Hfst Hl Hw Hlt). lia.
        -- pose proof (terminated_nonempty _ Hfst) as Hne.
           rewrite length_firstn in Hne.
           destruct i as [|i]; [lia|].
           destruct (IH (S pos) (pred n) i l) as (m & Hin & He);
             [lia|simpl in Hl; lia|exact Hw|].
           exists m. split; [now right|lia].
      * destruct i as [|i].
        -- exfalso. unfold slice in Hw. simpl skipn in Hw.
           apply matchHere_complete with (rest := skipn l (c :: s)) in Hw.
           rewrite firstn_skipn in Hw. contradiction.
        -- destruct (IH (S pos) 0 i l) as (m & Hin & He);
             [lia|simpl in Hl; lia|exact Hw|].
           exists m. split; [exact Hin|lia].
    + destruct i as [|i]; [lia|].
      destruct (IH (S pos) k i l) as (m & Hin & He);
        [lia|simpl in Hl; lia|exact Hw|].
      exists m. split; [exact Hin|lia].
Qed.

Lemma disjoint_ends_NoDup (code : jsstring) (occs : list Match) :
  Forall (occurrence r code) occs -> ForallOrdPairs disjoint occs ->
  NoDup (map endOf occs).
Proof.
  intros Hocc Hdis. induction Hdis as [|m occs Hm Hdis IH]; simpl;
    [constructor|].
  inversion Hocc as [|? ? Hom Hocc']; subst.
  constructor; [|auto].
  intros Hin. apply in_map_iff in Hin. destruct Hin as (m' & He & Hin').
  rewrite Forall_forall in Hm, Hocc'.
  specialize (Hm _ Hin'). specialize (Hocc' _ Hin').
  destruct Hom as [_ Hw]. destruct Hocc' as [_ Hw'].
  apply terminated_nonempty in Hw, Hw'. unfold slice in Hw, Hw'.
  rewrite length_firstn in Hw, Hw'.
  unfold endOf in He. destruct Hm; lia.
Qed.

(** The global search finds as many matches as the text has
    non-overlapping occurrences. *)
Lemma globalMatches_occursTimes (code : jsstring) :
  occursTimes r code (length (globalMatches r code 0 0)).
Proof.
  split.
  - exists (globalMatches r code 0 0).
    split; [reflexivity|].
    split; [apply globalMatches_occurrence|apply globalMatches_disjoint].
  - intros occs Hocc Hdis.
    rewrite <- (length_map endOf occs).
    rewrite <- (length_map endOf (globalMatches r code 0 0)).
    apply NoDup_incl_length; [now apply disjoint_ends_NoDup with (code := code)|].
    intros e He. apply in_map_iff in He. destruct He as (m & <- & Hin).
    rewrite Forall_forall in Hocc. destruct (Hocc _ Hin) as [Hl Hw].
    destruct (globalMatches_covers code 0 0 (index m) (matchLength m))
      as (m' & Hin' & He'); [lia|exact Hl|exact Hw|].
    apply in_map_iff. exists m'. split; [|exact Hin'].
    rewrite He'. reflexivity.
Qed.

Lemma occursTimes_unique (code : jsstring) (n n' : nat) :
  occursTimes r code n -> occursTimes r code n' -> n = n'.
Proof.
  intros [(o & <- & Ho & Hd) Hmax] [(o' & <- & Ho' & Hd') Hmax'].
  specialize (Hmax _ Ho' Hd'). specialize (Hmax' _ Ho Hd). lia.
Qed.

End Terminated.

(** ** The issues of one rule *)

Lemma skipn_head (A : Type) (d c : A) (i : nat) (l rest : list A) :
  skipn i l = c :: rest -> i < length l /\ nth i l d = c.
Proof.
  revert l. induction i as [|i IH]; intros [|x l]; simpl; try discriminate.
  - intros [= -> _]. split; [lia|reflexivity].
  - intros H. destruct (IH _ H). split; [lia|assumption].
Qed.

Lemma startsWithLiteral_head (r : RegExp) (s : jsstring) (n : nat) :
  startsWithLiteral r = true -> matchHere r s = Some n ->
  exists c rest, s = c :: rest /\ c <> LF.
Proof.
  unfold startsWithLiteral, matchHere.
  induction (disjunction r) as [|ts alts IH]; simpl; [discriminate|].
  intros H. apply andb_true_iff in H. destruct H as [Hts Halts].
  destruct (matchAlternative ts s) as [n'|] eqn:M; [|now apply IH].
  intros _. destruct ts as [|[[c| | |] []] ts]; try discriminate.
  simpl in M. destruct s as [|c' s]; [discriminate|].
  destruct (N.eqb c' c) eqn:E; [|discriminate].
  apply N.eqb_eq in E. subst c'. apply negb_true_iff, N.eqb_neq in Hts.
  exists c, s. auto.
Qed.

Lemma ruleMatches_spec (code : jsstring) (rule : Rule.t) (m : Match) :
  In m (ruleMatches code rule) ->
  index m <= length code
  /\ matchHere (Rule.pattern rule) (skipn (index m) code) = Some (matchLength m).
Proof.
  unfold ruleMatches. destruct (global (Rule.pattern rule)).
  - intros H. apply globalMatches_spec in H. rewrite Nat.sub_0_r in H. tauto.
  - destruct (exec (Rule.pattern rule) code) as [m'|] eqn:E; [|intros []].
    intros [<-|[]]. apply execFrom_Some in E.
    destruct E as (i & Hi & Hl & Hm). simpl in Hi. subst i. auto.
Qed.

Lemma ruleMatches_occurrence (code : jsstring) (rule : Rule.t) (m : Match) :
  In m (ruleMatches code rule) -> occurrence (Rule.pattern rule) code m.
Proof.
  intros H. apply ruleMatches_spec in H. destruct H as [Hi Hm].
  destruct m as [i n]. now apply matchHere_occurrence.
Qed.

(** An issue pushed for a match of a rule is located at the start of the
    match. *)
Lemma issueAt_located (x : double01) (code : jsstring) (rule : Rule.t) (m : Match) :
  startsWithLiteral (Rule.pattern rule) = true ->
  In m (ruleMatches code rule) ->
  locatedAt code m (issueAt x code rule (index m)).
Proof.
  intros Hlit Hin. apply ruleMatches_spec in Hin. destruct Hin as [_ Hm].
  destruct (startsWithLiteral_head _ _ _ Hlit Hm) as (c & rest & Hs & Hc).
  apply skipn_head with (d := 0%N) in Hs. destruct Hs as [Hlt Hnth].
  unfold locatedAt, issueAt, lineBreaksBefore, codeColumn, substring0. simpl.
  split.
  - rewrite split_length. lia.
  - destruct (index m) as [|i] eqn:E; [reflexivity|].
    rewrite lastIndexOf_preceding; [reflexivity|exact Hlt|congruence].
Qed.

Lemma issuesAt_located (random : nat -> double01) (code : jsstring)
    (rule : Rule.t) (ms : list Match) (d : nat) :
  startsWithLiteral (Rule.pattern rule) = true ->
  incl ms (ruleMatches code rule) ->
  Forall2 (locatedAt code) ms (issuesAt random code rule d (map index ms)).
Proof.
  intros Hlit. revert d. induction ms as [|m ms IH]; intros d Hincl; simpl;
    constructor.
  - apply issueAt_located; [exact Hlit|]. apply Hincl. now left.
  - apply IH. intros m' Hm'. apply Hincl. now right.
Qed.

Lemma ruleIssues_located (random : nat -> double01) (code : jsstring)
    (rule : Rule.t) (d : nat) :
  startsWithLiteral (Rule.pattern rule) = true ->
  Forall2 (locatedAt code) (ruleMatches code rule) (ruleIssues random code rule d).
Proof.
  intros Hlit. apply issuesAt_located; [exact Hlit|apply incl_refl].
Qed.

Lemma withRule_issuesAt (random : nat -> double01) (code : jsstring)
    (rule : Rule.t) (d : nat) (idxs : list nat) (rid : jsstring) :
  withRule rid (issuesAt random code rule d idxs)
  = if jsstring_eqb (Rule.rule rule) rid then issuesAt random code rule d idxs
    else [].
Proof.
  revert d. induction idxs as [|i idxs IH]; intros d; simpl.
  - now destruct (jsstring_eqb (Rule.rule rule) rid).
  - rewrite IH. now destruct (jsstring_eqb (Rule.rule rule) rid).
Qed.

Lemma withRule_app (rid : jsstring) (l l' : list Issue.t) :
  withRule rid (l ++ l') = withRule rid l ++ withRule rid l'.
Proof. apply filter_app. Qed.

Lemma withRule_catalog_others (random : nat -> double01) (code : jsstring)
    (rid : jsstring) (rules : list Rule.t) (d : nat) :
  forallb (fun r => negb (jsstring_eqb (Rule.rule r) rid)) rules = true ->
  withRule rid (catalogIssues random code rules d) = [].
Proof.
  revert d. induction rules as [|rule rules IH]; intros d; simpl; [reflexivity|].
  intros H. apply andb_true_iff in H. destruct H as [Hr Hrs].
  apply negb_true_iff in Hr.
  rewrite withRule_app. unfold ruleIssues. rewrite withRule_issuesAt, Hr.
  now apply IH.
Qed.

Lemma withRule_catalog_one (random : nat -> double01) (code : jsstring)
    (pre post : list Rule.t) (rule : Rule.t) (d : nat) :
  forallb (fun r => negb (jsstring_eqb (Rule.rule r) (Rule.rule rule)))
    (pre ++ post) = true ->
  exists d',
    withRule (Rule.rule rule) (catalogIssues random code (pre ++ rule :: post) d)
    = ruleIssues random code rule d'.
Proof.
  revert d. induction pre as [|r pre IH]; intros d; simpl.
  - intros H. exists d. rewrite withRule_app, withRule_catalog_others by exact H.
    unfold ruleIssues. rewrite withRule_issuesAt.
    assert (E : jsstring_eqb (Rule.rule rule) (Rule.rule rule) = true)
      by now apply jsstring_eqb_eq.
    rewrite E. apply app_nil_r.
  - intros H. apply andb_true_iff in H. destruct H as [Hr Hrs].
    apply negb_true_iff in Hr.
    destruct (IH (d + length (ruleMatches code r)) Hrs) as (d' & Hd').
    exists d'. rewrite withRule_app. unfold ruleIssues at 1.
    rewrite withRule_issuesAt, Hr. exact Hd'.
Qed.

Lemma rulesFor_cases (language : jsstring) :
  rulesFor language = javaRules \/ rulesFor language = pythonRules
  \/ rulesFor language = cppRules \/ rulesFor language = [].
Proof.
  unfold rulesFor.
  destruct (jsstring_eqb language (lit "java")); [auto|].
  destruct (jsstring_eqb language (lit "python")); [auto|].
  destruct (jsstring_eqb language (lit "cpp")); auto.
Qed.

Lemma rules_start_with_literal (language : jsstring) (rule : Rule.t) :
  In rule (rulesFor language) -> startsWithLiteral (Rule.pattern rule) = true.
Proof.
  destruct (rulesFor_cases language) as [-> | [-> | [-> | ->]]]; simpl; intros H;
    repeat (destruct H as [<-|H]; [reflexivity|]); contradiction.
Qed.

(** Within the issues of a result, the issues that carry the identifier of
    a rule of the selected table are the issues pushed for that rule. *)
Lemma issues_of_rule (random : nat -> double01) (code language : jsstring)
    (seed : nat) (rule : Rule.t) :
  In rule (rulesFor language) ->
  exists res d,
    call random code language seed = Normal res
    /\ withRule (Rule.rule rule) (issues res) = ruleIssues random code rule d.
Proof.
  intros Hin.
  destruct (call_run random code language seed) as (res & Hcall & Hissues & _).
  set (filler := _ :: _ :: nil) in Hissues.
  assert (Hsplit : exists pre post,
             rulesFor language = pre ++ rule :: post
             /\ forallb (fun r => negb (jsstring_eqb (Rule.rule r) (Rule.rule rule)))
                  (pre ++ post) = true
             /\ withRule (Rule.rule rule) filler = []).
  { destruct (rulesFor_cases language) as [E | [E | [E | E]]];
      rewrite E in Hin |- *; simpl in Hin;
      repeat (destruct Hin as [<-|Hin];
              [ first [ exists [], (tl javaRules); repeat split; reflexivity
                      | exists (firstn 1 javaRules), (skipn 2 javaRules);
                        repeat split; reflexivity
                      | exists (firstn 2 javaRules), (skipn 3 javaRules);
                        repeat split; reflexivity
                      | exists (firstn 3 javaRules), (skipn 4 javaRules);
                        repeat split; reflexivity
                      | exists [], (tl pythonRules); repeat split; reflexivity
                      | exists (firstn 1 pythonRules), (skipn 2 pythonRules);
                        repeat split; reflexivity
                      | exists (firstn 2 pythonRules), (skipn 3 pythonRules);
                        repeat split; reflexivity
                      | exists [], (tl cppRules); repeat split; reflexivity
                      | exists (firstn 1 cppRules), (skipn 2 cppRules);
                        repeat split; reflexivity
                      | exists (firstn 2 cppRules), (skipn 3 cppRules);
                        repeat split; reflexivity ] |]);
      contradiction. }
  destruct Hsplit as (pre & post & E & Hothers & Hfill).
  destruct (withRule_catalog_one random code pre post rule seed Hothers)
    as (d & Hd).
  exists res, d. split; [exact Hcall|].
  rewrite Hissues, withRule_app, Hfill, app_nil_r, E. exact Hd.
Qed.

(** ** Location of the issues of the catalog *)

(** C1, as amended: every issue of the Matcher is pushed for an occurrence
    of the pattern of a rule of the selected table; its line is 1 plus the
    number of line breaks before the start of the occurrence, and its
    column is the start offset minus the offset of the nearest line break
    before it, taken as -1 when there is none, except that the column is 0
    when the occurrence starts at offset 0. *)
Theorem catalog_issue_location (random : nat -> double01)
    (code language : jsstring) (seed : nat) :
  exists res catalog f1 f2,
    call random code language seed = Normal res
    /\ Matcher random code language seed = Normal catalog
    /\ issues res = catalog ++ [f1; f2]
    /\ Forall (fun i =>
                 exists rule m,
                   In rule (rulesFor language)
                   /\ occurrence (Rule.pattern rule) code m
                   /\ Issue.rule i = Rule.rule rule
                   /\ Issue.line i = Z.of_nat (1 + lineBreaksBefore code (index m))
                   /\ Issue.column i
                      = match index m with
                        | 0 => 0%Z
                        | S _ => (Z.of_nat (index m)
                                  - precedingLineBreak code (index m))%Z
                        end)
         catalog.
Proof.
  destruct (call_run random code language seed) as (res & Hcall & Hissues & _).
  eexists res, _, _, _. split; [exact Hcall|].
  split; [apply Matcher_run|]. split; [exact Hissues|].
  apply Forall_forall. intros i Hi.
  apply In_catalogIssues in Hi. destruct Hi as (rule & m & k & Hr & Hm & ->).
  exists rule, m. split; [exact Hr|].
  split; [now apply ruleMatches_occurrence|].
  split; [reflexivity|].
  apply issueAt_located; [|exact Hm].
  eapply rules_start_with_literal; eassumption.
Qed.

(** C1, as stated, fails for the text with [class a] on its second line:
    the issue of the Matcher has column 1, and the specification's column
    is 1 at no offset of that text (it is 0 at the line start). *)
Lemma column_at_line_start_is_not_zero :
  ~ (forall catalog,
       Matcher sampleRandom classOnSecondLine java 0 = Normal catalog ->
       Forall (fun i =>
                 exists rule m,
                   In rule (rulesFor java)
                   /\ occurrence (Rule.pattern rule) classOnSecondLine m
                   /\ Issue.rule i = Rule.rule rule
                   /\ specLocatedAt classOnSecondLine m i)
         catalog).
Proof.
  intros H. specialize (H _ (Matcher_run sampleRandom classOnSecondLine java 0)).
  vm_compute catalogIssues in H.
  inversion H as [|i l Hi _]; subst; clear H.
  destruct Hi as (rule & m & _ & [Hlen _] & _ & _ & Hcol).
  cbn [Issue.column] in Hcol.
  destruct m as [idx len]. cbn [index matchLength] in *.
  change (length classOnSecondLine) with 8 in Hlen.
  assert (Hidx : idx <= 8) by lia. clear Hlen.
  do 9 (destruct idx as [|idx]; [vm_compute in Hcol; discriminate|]).
  lia.
Qed.

(** ** Find-all and first-match rules *)

Lemma global_rules_terminated (language : jsstring) (rule : Rule.t) :
  In rule (rulesFor language) -> global (Rule.pattern rule) = true ->
  exists t, terminated (Rule.pattern rule) t.
Proof.
  intros Hin Hg.
  destruct (rulesFor_cases language) as [E | [E | [E | E]]];
    rewrite E in Hin; simpl in Hin;
    repeat (destruct Hin as [<-|Hin];
            [ first [ discriminate Hg
                    | exists 59%N; apply terminatedBy_terminated; reflexivity
                    | exists 62%N; apply terminatedBy_terminated; reflexivity ] |]);
    contradiction.
Qed.

(** The rules with a global pattern are the two find-all rules. *)
Lemma global_rules (language : jsstring) (rule : Rule.t) :
  In rule (rulesFor language) -> global (Rule.pattern rule) = true ->
  rule = javaUnusedImports \/ rule = cppIncludeOptimization.
Proof.
  intros Hin Hg.
  destruct (rulesFor_cases language) as [E | [E | [E | E]]];
    rewrite E in Hin; simpl in Hin;
    repeat (destruct Hin as [<-|Hin];
            [ first [ discriminate Hg | now left | now right ] |]);
    contradiction.
Qed.

(** C3: for a rule of the selected table whose pattern is global, a text
    that contains exactly [N] non-overlapping occurrences of the pattern
    yields exactly [N] issues with the identifier of the rule, one located
    at each match of the global search, which are pairwise disjoint
    occurrences. *)
Theorem find_all_rule_issue_per_occurrence (random : nat -> double01)
    (code language : jsstring) (seed : nat) (rule : Rule.t) (N : nat) :
  In rule (rulesFor language) ->
  global (Rule.pattern rule) = true ->
  occursTimes (Rule.pattern rule) code N ->
  exists res occs,
    call random code language seed = Normal res
    /\ length (withRule (Rule.rule rule) (issues res)) = N
    /\ Forall (occurrence (Rule.pattern rule) code) occs
    /\ ForallOrdPairs disjoint occs
    /\ Forall2 (locatedAt code) occs (withRule (Rule.rule rule) (issues res)).
Proof.
  intros Hin Hg HN.
  destruct (issues_of_rule random code language seed rule Hin)
    as (res & d & Hcall & Hrule).
  destruct (global_rules_terminated language rule Hin Hg) as (t & Hterm).
  assert (Hms : ruleMatches code rule = globalMatches (Rule.pattern rule) code 0 0).
  { unfold ruleMatches. now rewrite Hg. }
  exists res, (globalMatches (Rule.pattern rule) code 0 0).
  split; [exact Hcall|]. rewrite Hrule.
  split.
  - rewrite ruleIssues_length, Hms.
    eapply occursTimes_unique; [|exact HN].
    now apply globalMatches_occursTimes with (t := t).
  - split; [apply globalMatches_occurrence|].
    split; [apply globalMatches_disjoint|].
    rewrite <- Hms. apply ruleIssues_located.
    eapply rules_start_with_literal; eassumption.
Qed.

Lemma find_all_rule_witness :
  (In javaUnusedImports (rulesFor java)
   /\ global (Rule.pattern javaUnusedImports) = true
   /\ occursTimes (Rule.pattern javaUnusedImports) threeImports 3)
  /\ exists res occs,
       call sampleRandom threeImports java 0 = Normal res
       /\ length (withRule (lit "unused-imports") (issues res)) = 3
       /\ Forall (occurrence (Rule.pattern javaUnusedImports) threeImports) occs
       /\ ForallOrdPairs disjoint occs
       /\ Forall2 (locatedAt threeImports) occs
            (withRule (lit "unused-imports") (issues res)).
Proof.
  assert (Hin : In javaUnusedImports (rulesFor java)) by (simpl; auto).
  assert (Hg : global (Rule.pattern javaUnusedImports) = true) by reflexivity.
  assert (HN : occursTimes (Rule.pattern javaUnusedImports) threeImports 3).
  { apply (globalMatches_occursTimes (Rule.pattern javaUnusedImports) 59%N).
    apply terminatedBy_terminated. reflexivity. }
  split; [auto|].
  exact (find_all_rule_issue_per_occurrence sampleRandom threeImports java 0
           javaUnusedImports 3 Hin Hg HN).
Defined.

(** C4: for a rule of the selected table whose pattern is not global, a
    text in which the pattern occurs, any number of times, yields exactly
    one issue with the identifier of the rule, located at an occurrence,
    and a text in which it does not occur yields none. *)
Theorem first_match_rule_single_issue (random : nat -> double01)
    (code language : jsstring) (seed : nat) (rule : Rule.t) :
  In rule (rulesFor language) ->
  global (Rule.pattern rule) = false ->
  exists res,
    call random code language seed = Normal res
    /\ ((exists m, occurrence (Rule.pattern rule) code m) ->
        exists m i, occurrence (Rule.pattern rule) code m
                    /\ withRule (Rule.rule rule) (issues res) = [i]
                    /\ locatedAt code m i)
    /\ ((forall m, ~ occurrence (Rule.pattern rule) code m) ->
        withRule (Rule.rule rule) (issues res) = []).
Proof.
  intros Hin Hg.
  destruct (issues_of_rule random code language seed rule Hin)
    as (res & d & Hcall & Hrule).
  exists res. split; [exact Hcall|]. rewrite Hrule.
  pose proof (ruleIssues_located random code rule d
                (rules_start_with_literal language rule Hin)) as Hloc.
  pose proof (ruleMatches_occurrence code rule) as Hocc.
  unfold ruleIssues in *. unfold ruleMatches in *. rewrite Hg in *.
  destruct (exec (Rule.pattern rule) code) as [m|] eqn:E; simpl in *.
  - split.
    + intros _. exists m, (issueAt (random d) code rule (index m)).
      split; [apply Hocc; now left|]. split; [reflexivity|].
      now inversion Hloc.
    + intros Hnone. exfalso. apply (Hnone m). apply Hocc. now left.
  - split; [|reflexivity].
    intros [m Hm]. exfalso. eapply exec_None; eassumption.
Qed.

Lemma first_match_rule_witness :
  (In pythonExceptionHandling (rulesFor python)
   /\ global (Rule.pattern pythonExceptionHandling) = false)
  /\ exists res,
       call sampleRandom fiveExcepts python 0 = Normal res
       /\ ((exists m, occurrence (Rule.pattern pythonExceptionHandling)
                        fiveExcepts m) ->
           exists m i, occurrence (Rule.pattern pythonExceptionHandling)
                         fiveExcepts m
                       /\ withRule (lit "exception-handling") (issues res) = [i]
                       /\ locatedAt fiveExcepts m i)
       /\ ((forall m, ~ occurrence (Rule.pattern pythonExceptionHandling)
                          fiveExcepts m) ->
           withRule (lit "exception-handling") (issues res) = []).
Proof.
  assert (Hin : In pythonExceptionHandling (rulesFor python))
    by (simpl; auto).
  assert (Hg : global (Rule.pattern pythonExceptionHandling) = false)
    by reflexivity.
  split; [auto|].
  exact (first_match_rule_single_issue sampleRandom fiveExcepts python 0
           pythonExceptionHandling Hin Hg).
Defined.

(** * Further properties of the analyzer *)

(** ** Metrics *)

(** The two metrics that [call_run] leaves out. *)
Lemma call_run_metrics (random : nat -> double01) (code language : jsstring)
    (seed : nat) :
  let d := seed + length (catalogIssues random code (rulesFor language) seed) in
  exists res,
    call random code language seed = Normal res
    /\ duplicateLines (metrics res) = floor_mul (random (S (S (S (S d))))) 5
    /\ testCoverage (metrics res)
       = Z.max 0 (100 - Z.of_nat (length (issues res)) * 3).
Proof.
  intros d. unfold call, analyzeCode.
  unfold bind at 1. rewrite forEach_applyRule_run.
  cbn [drawn issuesArray app]. fold d.
  unfold bind, generateRandomId, Math_random, readIssues, ret, push, forEach.
  cbn [drawn issuesArray].
  eexists. split; [reflexivity|].
  cbn [issues metrics duplicateLines testCoverage drawn issuesArray].
  split; reflexivity.
Qed.

Lemma Normal_inj (A : Type) (a b : A) : Normal a = Normal b -> a = b.
Proof. now intros [= ->]. Qed.

Lemma keyword_count (code : jsstring) :
  match String_match code branchKeywords with
  | Some v => Z.of_nat (length_of v)
  | None => 0%Z
  end = Z.of_nat (length (globalMatches branchKeywords code 0 0)).
Proof.
  unfold String_match. change (global branchKeywords) with true. cbv iota.
  destruct (globalMatches branchKeywords code 0 0) as [|m ms]; [reflexivity|].
  cbn [length_of]. now rewrite length_map.
Qed.

(** Matches of at least two code units, which do not overlap, are at most
    half as many as the code units searched. *)
Lemma globalMatches_half (r : RegExp) :
  (forall s n, matchHere r s = Some n -> 2 <= n) ->
  forall s pos skip, 2 * length (globalMatches r s pos skip) <= length s - skip.
Proof.
  intros Hr. induction s as [|c s IH]; intros pos skip.
  - destruct skip; simpl; [|lia].
    destruct (matchHere r []) as [n|] eqn:M; [|simpl; lia].
    pose proof (Hr _ _ M). apply matchHere_sound in M. simpl in M. lia.
  - destruct skip as [|k]; simpl.
    + destruct (matchHere r (c :: s)) as [n|] eqn:M.
      * pose proof (Hr _ _ M). apply matchHere_sound in M. simpl in M.
        specialize (IH (S pos) (pred n)). simpl. lia.
      * specialize (IH (S pos) 0). lia.
    + specialize (IH (S pos) k). lia.
Qed.

Lemma branchKeywords_two (s : jsstring) (n : nat) :
  matchHere branchKeywords s = Some n -> 2 <= n.
Proof.
  intros M. apply matchHere_sound in M. destruct M as [Hn (ts & Hin & Hw)].
  assert (Hlen : length (firstn n s) = n) by (rewrite length_firstn; lia).
  rewrite <- Hlen. clear Hlen Hn.
  generalize dependent (firstn n s). intros w Hw.
  simpl in Hin.
  repeat (destruct Hin as [<-|Hin];
          [ simpl in Hw;
            repeat match goal with
                   | H : exists _, _ |- _ => destruct H
                   | H : _ /\ _ |- _ => destruct H
                   end; subst; simpl; lia |]).
  contradiction.
Qed.

(** X1: the maintainability index is
    max(10, 100 - 5 issues - floor(complexity / 2)) and the test coverage is
    max(0, 100 - 3 issues), the issues being all those of the result; since
    there are at least two issues and the complexity is at least 1, the
    index lies in [10, 90] and the coverage in [0, 94]. *)
Theorem maintainability_and_coverage (random : nat -> double01)
    (code language : jsstring) (seed : nat) :
  exists res,
    call random code language seed = Normal res
    /\ maintainabilityIndex (metrics res)
       = Z.max 10 (100 - 5 * Z.of_nat (length (issues res))
                   - cyclomaticComplexity (metrics res) / 2)
    /\ testCoverage (metrics res)
       = Z.max 0 (100 - 3 * Z.of_nat (length (issues res)))
    /\ (10 <= maintainabilityIndex (metrics res) <= 90)%Z
    /\ (0 <= testCoverage (metrics res) <= 94)%Z.
Proof.
  destruct (call_run random code language seed)
    as (res & Hcall & Hissues & _ & _ & Hcc & Hmi & _).
  destruct (call_run_metrics random code language seed)
    as (res' & Hcall' & _ & Htc).
  rewrite Hcall in Hcall'. apply Normal_inj in Hcall'. subst res'.
  exists res. split; [exact Hcall|].
  assert (Hlen : 2 <= length (issues res)).
  { rewrite Hissues, length_app. simpl. lia. }
  assert (Hc : (1 <= cyclomaticComplexity (metrics res))%Z) by (rewrite Hcc; lia).
  assert (Hdiv : (0 <= cyclomaticComplexity (metrics res) / 2)%Z)
    by (apply Z.div_pos; lia).
  rewrite Hmi, Htc. repeat split; lia.
Qed.

(** X2: [duplicateLines] is one of 0, 1, 2, 3, 4. *)
Theorem duplicate_lines_range (random : nat -> double01)
    (code language : jsstring) (seed : nat) :
  exists res,
    call random code language seed = Normal res
    /\ (0 <= duplicateLines (metrics res) <= 4)%Z.
Proof.
  destruct (call_run_metrics random code language seed)
    as (res & Hcall & Hdup & _).
  exists res. split; [exact Hcall|]. rewrite Hdup.
  match goal with |- context [floor_mul ?x 5] =>
    pose proof (floor_mul_range x 5 eq_refl) as Hr end.
  simpl in Hr. lia.
Qed.

(** X3: [linesOfCode] is at most the number of lines of the text, and
    [cyclomaticComplexity] lies between 1 and
    max(1, floor(linesOfCode / 10) + floor(length / 2)), a keyword match
    taking at least two code units of the text. *)
Theorem lines_and_complexity_bounds (random : nat -> double01)
    (code language : jsstring) (seed : nat) :
  exists res,
    call random code language seed = Normal res
    /\ (0 <= linesOfCode (metrics res) <= Z.of_nat (lineCount code))%Z
    /\ (1 <= cyclomaticComplexity (metrics res)
        <= Z.max 1 (linesOfCode (metrics res) / 10
                    + Z.of_nat (length code) / 2))%Z.
Proof.
  destruct (call_run random code language seed)
    as (res & Hcall & _ & _ & Hloc & Hcc & _).
  exists res. split; [exact Hcall|]. split.
  - rewrite Hloc. unfold lineCount. rewrite <- split_length.
    split; [lia|]. apply Nat2Z.inj_le. apply filter_length_le.
  - rewrite Hcc, keyword_count.
    pose proof (globalMatches_half branchKeywords branchKeywords_two code 0 0)
      as Hhalf.
    rewrite Nat.sub_0_r in Hhalf.
    assert (Hk : (Z.of_nat (length (globalMatches branchKeywords code 0 0))
                  <= Z.of_nat (length code) / 2)%Z).
    { apply Z.div_le_lower_bound; lia. }
    lia.
Qed.

(** ** What the draws decide *)

Lemma issuesAt_sameButId (random1 random2 : nat -> double01) (code : jsstring)
    (rule : Rule.t) (idxs : list nat) (d1 d2 : nat) :
  Forall2 sameButId (issuesAt random1 code rule d1 idxs)
    (issuesAt random2 code rule d2 idxs).
Proof.
  revert d1 d2. induction idxs as [|i idxs IH]; intros d1 d2; simpl;
    constructor; [|apply IH].
  unfold sameButId. simpl. tauto.
Qed.

Lemma catalogIssues_sameButId (random1 random2 : nat -> double01)
    (code : jsstring) (rules : list Rule.t) (d1 d2 : nat) :
  Forall2 sameButId (catalogIssues random1 code rules d1)
    (catalogIssues random2 code rules d2).
Proof.
  revert d1 d2. induction rules as [|rule rules IH]; intros d1 d2; simpl;
    [constructor|].
  apply Forall2_app; [apply issuesAt_sameButId|apply IH].
Qed.

Lemma countType_sameButId (t : IssueType) (l l' : list Issue.t) :
  Forall2 sameButId l l' -> countType t l = countType t l'.
Proof.
  unfold countType. intros H. f_equal.
  induction H as [|i j l l' Hij _ IH]; simpl; [reflexivity|].
  destruct Hij as [-> _]. destruct (IssueType_eqb (Issue.type j) t); simpl; lia.
Qed.

(** X4: the draws decide the identifiers, the lines of the two fillers,
    [duplicateLines] and the number of suggestions, and nothing else: two
    calls on the same text and language, with any draws, return the same
    score, the same other metrics and, identifiers apart, the same issues of
    the catalog in the same order, followed by fillers that differ at most
    in identifier and line. *)
Theorem result_up_to_draws (random1 random2 : nat -> double01)
    (code language : jsstring) (seed1 seed2 : nat) :
  exists r1 r2 c1 c2 a1 b1 a2 b2,
    call random1 code language seed1 = Normal r1
    /\ call random2 code language seed2 = Normal r2
    /\ issues r1 = c1 ++ [a1; b1] /\ issues r2 = c2 ++ [a2; b2]
    /\ Forall2 sameButId c1 c2
    /\ sameButIdAndLine a1 a2 /\ sameButIdAndLine b1 b2
    /\ score r1 = score r2
    /\ linesOfCode (metrics r1) = linesOfCode (metrics r2)
    /\ cyclomaticComplexity (metrics r1) = cyclomaticComplexity (metrics r2)
    /\ maintainabilityIndex (metrics r1) = maintainabilityIndex (metrics r2)
    /\ testCoverage (metrics r1) = testCoverage (metrics r2).
Proof.
  destruct (call_run random1 code language seed1)
    as (r1 & Hcall1 & Hissues1 & Hscore1 & Hloc1 & Hcc1 & Hmi1 & _).
  destruct (call_run random2 code language seed2)
    as (r2 & Hcall2 & Hissues2 & Hscore2 & Hloc2 & Hcc2 & Hmi2 & _).
  destruct (call_run_metrics random1 code language seed1)
    as (r1' & Hcall1' & _ & Htc1).
  destruct (call_run_metrics random2 code language seed2)
    as (r2' & Hcall2' & _ & Htc2).
  rewrite Hcall1 in Hcall1'. apply Normal_inj in Hcall1'. subst r1'.
  rewrite Hcall2 in Hcall2'. apply Normal_inj in Hcall2'. subst r2'.
  pose proof (catalogIssues_sameButId random1 random2 code (rulesFor language)
                seed1 seed2) as Hsame.
  set (c1 := catalogIssues random1 _ _ _) in *.
  set (c2 := catalogIssues random2 _ _ _) in *.
  set (f1 := _ :: _ :: nil) in Hissues1.
  set (f2 := _ :: _ :: nil) in Hissues2.
  assert (Hlen : length (issues r1) = length (issues r2)).
  { rewrite Hissues1, Hissues2, !length_app.
    pose proof (Forall2_length Hsame) as Hl. unfold f1, f2. simpl. lia. }
  assert (Hloc : linesOfCode (metrics r1) = linesOfCode (metrics r2))
    by now rewrite Hloc1, Hloc2.
  assert (Hcc : cyclomaticComplexity (metrics r1)
                = cyclomaticComplexity (metrics r2))
    by now rewrite Hcc1, Hcc2, Hloc.
  eexists r1, r2, c1, c2, _, _, _, _.
  split; [exact Hcall1|]. split; [exact Hcall2|].
  split; [exact Hissues1|]. split; [exact Hissues2|].
  split; [exact Hsame|].
  split; [unfold sameButIdAndLine; simpl; tauto|].
  split; [unfold sameButIdAndLine; simpl; tauto|].
  split.
  - rewrite Hscore1, Hscore2, Hissues1, Hissues2, !countType_app.
    rewrite !(countType_sameButId _ c1 c2 Hsame). reflexivity.
  - split; [exact Hloc|]. split; [exact Hcc|].
    split; [now rewrite Hmi1, Hmi2, Hlen, Hcc|now rewrite Htc1, Htc2, Hlen].
Qed.

(** ** Which occurrences get the issues *)

Lemma execFrom_leftmost (r : RegExp) (s : jsstring) (pos : nat) (m : Match) :
  execFrom r s pos = Some m ->
  forall j, j < index m - pos -> matchHere r (skipn j s) = None.
Proof.
  revert pos. induction s as [|c s IH]; intros pos; simpl.
  - destruct (matchHere r []) eqn:M; [|discriminate].
    intros [= <-] j Hj. simpl in Hj. lia.
  - destruct (matchHere r (c :: s)) eqn:M.
    + intros [= <-] j Hj. simpl in Hj. lia.
    + intros H j Hj. destruct j as [|j]; [exact M|].
      simpl. apply (IH _ H). lia.
Qed.

Lemma exec_leftmost (r : RegExp) (code : jsstring) (m m' : Match) :
  exec r code = Some m -> occurrence r code m' -> index m <= index m'.
Proof.
  intros E Hocc. destruct (le_lt_dec (index m) (index m')) as [H|H]; [exact H|].
  exfalso. apply occurrence_matchHere in Hocc. apply Hocc.
  apply (execFrom_leftmost r code 0 m E). lia.
Qed.

(** X5: when the pattern of a first-match rule occurs in the text, its one
    issue is located at the leftmost occurrence: no occurrence starts
    before it. *)
Theorem first_match_issue_leftmost (random : nat -> double01)
    (code language : jsstring) (seed : nat) (rule : Rule.t) (m0 : Match) :
  In rule (rulesFor language) ->
  global (Rule.pattern rule) = false ->
  occurrence (Rule.pattern rule) code m0 ->
  exists res m i,
    call random code language seed = Normal res
    /\ withRule (Rule.rule rule) (issues res) = [i]
    /\ occurrence (Rule.pattern rule) code m
    /\ locatedAt code m i
    /\ forall m', occurrence (Rule.pattern rule) code m' -> index m <= index m'.
Proof.
  intros Hin Hg H0.
  destruct (issues_of_rule random code language seed rule Hin)
    as (res & d & Hcall & Hrule).
  pose proof (ruleIssues_located random code rule d
                (rules_start_with_literal language rule Hin)) as Hloc.
  pose proof (ruleMatches_occurrence code rule) as Hocc.
  unfold ruleIssues in *. unfold ruleMatches in *. rewrite Hg in *.
  destruct (exec (Rule.pattern rule) code) as [m|] eqn:E; simpl in *.
  - exists res, m, (issueAt (random d) code rule (index m)).
    split; [exact Hcall|]. split; [exact Hrule|].
    split; [apply Hocc; now left|].
    split; [now inversion Hloc|].
    intros m' Hm'. eapply exec_leftmost; eassumption.
  - exfalso. eapply exec_None; eassumption.
Qed.

Lemma first_match_issue_leftmost_witness :
  (In pythonExceptionHandling (rulesFor python)
   /\ global (Rule.pattern pythonExceptionHandling) = false
   /\ occurrence (Rule.pattern pythonExceptionHandling) fiveExcepts
        (mkMatch 8 7))
  /\ exists res m i,
       call sampleRandom fiveExcepts python 0 = Normal res
       /\ withRule (lit "exception-handling") (issues res) = [i]
       /\ occurrence (Rule.pattern pythonExceptionHandling) fiveExcepts m
       /\ locatedAt fiveExcepts m i
       /\ forall m', occurrence (Rule.pattern pythonExceptionHandling)
                       fiveExcepts m' -> index m <= index m'.
Proof.
  assert (Hin : In pythonExceptionHandling (rulesFor python)) by (simpl; auto).
  assert (Hg : global (Rule.pattern pythonExceptionHandling) = false)
    by reflexivity.
  assert (H0 : occurrence (Rule.pattern pythonExceptionHandling) fiveExcepts
                 (mkMatch 8 7)).
  { apply (matchHere_occurrence (Rule.pattern pythonExceptionHandling)
             fiveExcepts 8 7); [vm_compute; lia|reflexivity]. }
  split; [auto|].
  exact (first_match_issue_leftmost sampleRandom fiveExcepts python 0
           pythonExceptionHandling (mkMatch 8 7) Hin Hg H0).
Defined.






(** ** Blank texts *)

Lemma trimStart_nil (s : jsstring) :
  trimStart s = [] <-> forallb isWhiteSpace s = true.
Proof.
  induction s as [|c s IH]; simpl; [tauto|].
  destruct (isWhiteSpace c); simpl; [exact IH|].
  split; discriminate.
Qed.

Lemma trimStart_head (s : jsstring) (c : code_unit) (t : jsstring) :
  trimStart s = c :: t -> isWhiteSpace c = false.
Proof.
  induction s as [|d s IH]; simpl; [discriminate|].
  destruct (isWhiteSpace d) eqn:E; [exact IH|].
  now intros [= <- _].
Qed.

Lemma forallb_rev (f : code_unit -> bool) (s : jsstring) :
  forallb f (rev s) = forallb f s.
Proof.
  induction s as [|c s IH]; simpl; [reflexivity|].
  rewrite forallb_app. simpl. rewrite IH. destruct (f c), (forallb f s); reflexivity.
Qed.

Lemma blank_iff (s : jsstring) : blank s <-> forallb isWhiteSpace s = true.
Proof.
  unfold blank, trim, trimEnd. split.
  - intros H. apply trimStart_nil.
    destruct (trimStart s) as [|c t] eqn:E; [reflexivity|].
    apply (f_equal (@rev _)) in H. rewrite rev_involutive in H.
    change (rev []) with (@nil code_unit) in H.
    apply trimStart_nil in H. rewrite forallb_rev in H. simpl in H.
    apply trimStart_head in E. rewrite E in H. discriminate.
  - intros H. apply trimStart_nil in H. rewrite H. reflexivity.
Qed.

Lemma forallb_skipn (f : code_unit -> bool) (s : jsstring) (i : nat) :
  forallb f s = true -> forallb f (skipn i s) = true.
Proof.
  revert i. induction s as [|c s IH]; intros [|i]; simpl; auto.
  intros H. apply andb_true_iff in H. apply IH. tauto.
Qed.

Lemma split_blank (s : jsstring) :
  forallb isWhiteSpace s = true ->
  Forall (fun line => forallb isWhiteSpace line = true) (split s LF).
Proof.
  induction s as [|c s IH]; simpl; [repeat constructor|].
  intros H. apply andb_true_iff in H. destruct H as [Hc Hs].
  specialize (IH Hs).
  destruct (N.eqb c LF); [constructor; [reflexivity|exact IH]|].
  destruct (split s LF) as [|l ls]; [repeat constructor; simpl; now rewrite Hc|].
  inversion IH; subst. constructor; [simpl; now rewrite Hc|assumption].
Qed.

Lemma startsWithInk_head (r : RegExp) (s : jsstring) (n : nat) :
  startsWithInk r = true -> matchHere r s = Some n ->
  exists c rest, s = c :: rest /\ isWhiteSpace c = false.
Proof.
  unfold startsWithInk, matchHere.
  induction (disjunction r) as [|ts alts IH]; simpl; [discriminate|].
  intros H. apply andb_true_iff in H. destruct H as [Hts Halts].
  destruct (matchAlternative ts s) as [n'|] eqn:M; [|now apply IH].
  intros _. destruct ts as [|[[c| | |] []] ts]; try discriminate.
  simpl in M. destruct s as [|c' s]; [discriminate|].
  destruct (N.eqb c' c) eqn:E; [|discriminate].
  apply N.eqb_eq in E. subst c'. apply negb_true_iff in Hts.
  exists c, s. auto.
Qed.

Lemma blank_no_match (r : RegExp) (code : jsstring) (i : nat) :
  startsWithInk r = true -> forallb isWhiteSpace code = true ->
  matchHere r (skipn i code) = None.
Proof.
  intros Hr Hb. destruct (matchHere r (skipn i code)) as [n|] eqn:M;
    [|reflexivity].
  destruct (startsWithInk_head _ _ _ Hr M) as (c & rest & Hs & Hc).
  apply (forallb_skipn _ _ i) in Hb. rewrite Hs in Hb. simpl in Hb.
  rewrite Hc in Hb. discriminate.
Qed.

Lemma blank_globalMatches (r : RegExp) (code : jsstring) :
  startsWithInk r = true -> forallb isWhiteSpace code = true ->
  globalMatches r code 0 0 = [].
Proof.
  intros Hr Hb. destruct (globalMatches r code 0 0) as [|m ms] eqn:E;
    [reflexivity|].
  assert (Hin : In m (globalMatches r code 0 0)) by (rewrite E; now left).
  apply globalMatches_spec in Hin. destruct Hin as (_ & _ & Hm).
  rewrite (blank_no_match r code _ Hr Hb) in Hm. discriminate.
Qed.

Lemma blank_ruleMatches (code : jsstring) (rule : Rule.t) :
  startsWithInk (Rule.pattern rule) = true ->
  forallb isWhiteSpace code = true -> ruleMatches code rule = [].
Proof.
  intros Hr Hb. unfold ruleMatches.
  destruct (global (Rule.pattern rule)); [now apply blank_globalMatches|].
  destruct (exec (Rule.pattern rule) code) as [m|] eqn:E; [|reflexivity].
  apply execFrom_Some in E. destruct E as (i & _ & _ & Hm).
  rewrite (blank_no_match _ code _ Hr Hb) in Hm. discriminate.
Qed.

Lemma rules_start_with_ink (language : jsstring) (rule : Rule.t) :
  In rule (rulesFor language) -> startsWithInk (Rule.pattern rule) = true.
Proof.
  destruct (rulesFor_cases language) as [-> | [-> | [-> | ->]]]; simpl; intros H;
    repeat (destruct H as [<-|H]; [reflexivity|]); contradiction.
Qed.

Lemma blank_catalog (random : nat -> double01) (code language : jsstring)
    (seed : nat) :
  forallb isWhiteSpace code = true ->
  catalogIssues random code (rulesFor language) seed = [].
Proof.
  intros Hb.
  pose proof (rules_start_with_ink language) as Hink.
  revert seed. induction (rulesFor language) as [|rule rules IH]; intros seed;
    simpl; [reflexivity|].
  unfold ruleIssues.
  rewrite (blank_ruleMatches code rule (Hink rule (or_introl eq_refl)) Hb).
  simpl. apply IH. intros r Hr. apply Hink. now right.
Qed.

Lemma blank_lines_filter (lines : list jsstring) :
  Forall (fun line => forallb isWhiteSpace line = true) lines ->
  filter (fun line => truthy (trim line)
                      && negb (startsWith (trim line) (lit "//"))) lines = [].
Proof.
  intros H. induction H as [|line lines Hline _ IH]; [reflexivity|].
  simpl. apply blank_iff in Hline. unfold blank in Hline. rewrite Hline.
  simpl. exact IH.
Qed.

(** X7: a blank text, one of white space only (the empty text is one), gets
    the same verdict under every language: no issue from the catalog, the
    two fillers, score 89, no line of code, complexity 1, maintainability
    90 and coverage 94. *)
Theorem blank_text_result (random : nat -> double01) (code language : jsstring)
    (seed : nat) :
  blank code ->
  exists res f1 f2,
    call random code language seed = Normal res
    /\ Matcher random code language seed = Normal []
    /\ issues res = [f1; f2]
    /\ score res = 89%Z
    /\ linesOfCode (metrics res) = 0%Z
    /\ cyclomaticComplexity (metrics res) = 1%Z
    /\ maintainabilityIndex (metrics res) = 90%Z
    /\ testCoverage (metrics res) = 94%Z.
Proof.
  intros Hb. apply blank_iff in Hb.
  destruct (call_run random code language seed)
    as (res & Hcall & Hissues & Hscore & Hloc & Hcc & Hmi & _).
  destruct (call_run_metrics random code language seed)
    as (res' & Hcall' & _ & Htc).
  rewrite Hcall in Hcall'. apply Normal_inj in Hcall'. subst res'.
  rewrite (blank_catalog random code language seed Hb) in Hissues.
  simpl in Hissues.
  assert (Hloc0 : linesOfCode (metrics res) = 0%Z).
  { rewrite Hloc, (blank_lines_filter _ (split_blank code Hb)). reflexivity. }
  assert (Hcc1 : cyclomaticComplexity (metrics res) = 1%Z).
  { rewrite Hcc, Hloc0, keyword_count.
    rewrite (blank_globalMatches branchKeywords code eq_refl Hb). reflexivity. }
  eexists res, _, _. split; [exact Hcall|].
  split; [rewrite Matcher_run; f_equal; now apply blank_catalog|].
  split; [exact Hissues|].
  split; [rewrite Hscore, Hissues; reflexivity|].
  split; [exact Hloc0|]. split; [exact Hcc1|].
  split; [rewrite Hmi, Hcc1, Hissues; reflexivity|].
  rewrite Htc, Hissues. reflexivity.
Qed.

Lemma blank_text_result_witness :
  blank (lit "  " ++ [LF; 9%N] ++ lit " ")
  /\ exists res f1 f2,
       call sampleRandom (lit "  " ++ [LF; 9%N] ++ lit " ") cpp 0 = Normal res
       /\ Matcher sampleRandom (lit "  " ++ [LF; 9%N] ++ lit " ") cpp 0
          = Normal []
       /\ issues res = [f1; f2]
       /\ score res = 89%Z
       /\ linesOfCode (metrics res) = 0%Z
       /\ cyclomaticComplexity (metrics res) = 1%Z
       /\ maintainabilityIndex (metrics res) = 90%Z
       /\ testCoverage (metrics res) = 94%Z.
Proof.
  split; [reflexivity|].
  apply blank_text_result. reflexivity.
Defined.

(** ** Types, severities and the score *)

Lemma countType_total (l : list Issue.t) :
  (countType error l + countType warning l + countType suggestion l
   = Z.of_nat (length l))%Z.
Proof.
  unfold countType. rewrite <- !Nat2Z.inj_add. f_equal.
  induction l as [|i l IH]; simpl; [reflexivity|].
  destruct (Issue.type i); simpl; lia.
Qed.

Lemma countType_issuesAt (random : nat -> double01) (code : jsstring)
    (rule : Rule.t) (d : nat) (idxs : list nat) (t : IssueType) :
  countType t (issuesAt random code rule d idxs)
  = if IssueType_eqb (Rule.type rule) t then Z.of_nat (length idxs) else 0%Z.
Proof.
  unfold countType.
  assert (H : length (filter (fun i => IssueType_eqb (Issue.type i) t)
                        (issuesAt random code rule d idxs))
              = if IssueType_eqb (Rule.type rule) t then length idxs else 0).
  { revert d. induction idxs as [|i idxs IH]; intros d; simpl.
    - now destruct (IssueType_eqb (Rule.type rule) t).
    - specialize (IH (S d)).
      destruct (IssueType_eqb (Rule.type rule) t); simpl; lia. }
  rewrite H. now destruct (IssueType_eqb (Rule.type rule) t).
Qed.

Lemma countType_ruleIssues (random : nat -> double01) (code : jsstring)
    (rule : Rule.t) (d : nat) (t : IssueType) :
  countType t (ruleIssues random code rule d)
  = if IssueType_eqb (Rule.type rule) t
    then Z.of_nat (length (ruleMatches code rule)) else 0%Z.
Proof.
  unfold ruleIssues. rewrite countType_issuesAt. now rewrite length_map.
Qed.

Lemma countType_catalog_none (random : nat -> double01) (code : jsstring)
    (rules : list Rule.t) (d : nat) (t : IssueType) :
  forallb (fun r => negb (IssueType_eqb (Rule.type r) t)) rules = true ->
  countType t (catalogIssues random code rules d) = 0%Z.
Proof.
  revert d. induction rules as [|rule rules IH]; intros d; simpl; [reflexivity|].
  intros H. apply andb_true_iff in H. destruct H as [Hr Hrs].
  apply negb_true_iff in Hr.
  rewrite countType_app, countType_ruleIssues, Hr, IH by exact Hrs. reflexivity.
Qed.

Lemma first_match_at_most_one (code : jsstring) (rule : Rule.t) :
  global (Rule.pattern rule) = false -> length (ruleMatches code rule) <= 1.
Proof.
  intros Hg. unfold ruleMatches. rewrite Hg.
  destruct (exec (Rule.pattern rule) code); simpl; lia.
Qed.

Lemma rulesFor_pythonRules (language : jsstring) :
  rulesFor language = pythonRules -> language = lit "python".
Proof.
  unfold rulesFor.
  destruct (jsstring_eqb language (lit "java")).
  - intros H. apply (f_equal (@length _)) in H. discriminate H.
  - destruct (jsstring_eqb language (lit "python")) eqn:E.
    + intros _. now apply jsstring_eqb_eq.
    + destruct (jsstring_eqb language (lit "cpp")); intros H.
      * apply (f_equal (map (fun r => global (Rule.pattern r)))) in H.
        discriminate H.
      * discriminate H.
Qed.

(** X8: a result holds at most one issue of type [error], and holds one
    only when the language is [python] and the text contains [except:]. *)
Theorem errors_only_from_bare_except (random : nat -> double01)
    (code language : jsstring) (seed : nat) :
  exists res,
    call random code language seed = Normal res
    /\ (countType error (issues res) = 0%Z
        \/ (countType error (issues res) = 1%Z
            /\ language = lit "python"
            /\ exists m, occurrence (Rule.pattern pythonExceptionHandling) code m)).
Proof.
  destruct (call_run random code language seed) as (res & Hcall & Hissues & _).
  set (filler := _ :: _ :: nil) in Hissues.
  exists res. split; [exact Hcall|].
  rewrite Hissues, countType_app.
  change (countType error filler) with 0%Z. rewrite Z.add_0_r.
  destruct (rulesFor_cases language) as [E | [E | [E | E]]]; rewrite E.
  - left. now apply countType_catalog_none.
  - apply rulesFor_pythonRules in E.
    unfold pythonRules. cbn [catalogIssues].
    rewrite !countType_app, !countType_ruleIssues. cbn [Rule.type
      pythonNamingConvention pythonImportStyle pythonExceptionHandling
      IssueType_eqb catalogIssues]. 
    change (countType error []) with 0%Z.
    unfold ruleMatches.
    change (global (Rule.pattern pythonExceptionHandling)) with false.
    cbv iota.
    destruct (exec (Rule.pattern pythonExceptionHandling) code) as [m|] eqn:Ex.
    + right. split; [reflexivity|]. split; [exact E|].
      exists m. now apply exec_occurrence.
    + left. reflexivity.
  - left. now apply countType_catalog_none.
  - left. reflexivity.
Qed.

(** X9: under [python], whose three rules are first-match rules, a result
    has at most 5 issues, a score from 58 to 89 and a test coverage from 85
    to 94. *)
Theorem python_result_bounds (random : nat -> double01) (code : jsstring)
    (seed : nat) :
  exists res,
    call random code (lit "python") seed = Normal res
    /\ 2 <= length (issues res) <= 5
    /\ (58 <= score res <= 89)%Z
    /\ (85 <= testCoverage (metrics res) <= 94)%Z.
Proof.
  destruct (call_run random code (lit "python") seed)
    as (res & Hcall & Hissues & Hscore & _).
  destruct (call_run_metrics random code (lit "python") seed)
    as (res' & Hcall' & _ & Htc).
  rewrite Hcall in Hcall'. apply Normal_inj in Hcall'. subst res'.
  set (filler := _ :: _ :: nil) in Hissues.
  exists res. split; [exact Hcall|].
  assert (Hcounts :
            (countType error (issues res) <= 1
             /\ countType warning (issues res) <= 3
             /\ countType suggestion (issues res) = 1
             /\ 1 <= countType warning (issues res)
             /\ 0 <= countType error (issues res))%Z).
  { rewrite Hissues, !countType_app.
    change (rulesFor (lit "python")) with pythonRules.
    unfold pythonRules. cbn [catalogIssues].
    rewrite !countType_app, !countType_ruleIssues.
    cbn [Rule.type pythonNamingConvention pythonImportStyle
         pythonExceptionHandling IssueType_eqb].
    change (countType error []) with 0%Z.
    change (countType warning []) with 0%Z.
    change (countType suggestion []) with 0%Z.
    change (countType error filler) with 0%Z.
    change (countType warning filler) with 1%Z.
    change (countType suggestion filler) with 1%Z.
    pose proof (first_match_at_most_one code pythonNamingConvention eq_refl).
    pose proof (first_match_at_most_one code pythonImportStyle eq_refl).
    pose proof (first_match_at_most_one code pythonExceptionHandling eq_refl).
    lia. }
  pose proof (countType_total (issues res)) as Htot.
  rewrite Hscore, Htc. lia.
Qed.

(** X10: in every result the severity goes with the type: an error is
    [high], a warning is [medium], and a suggestion is [low] or [medium];
    the issues of the
    catalog take type, message, rule identifier and severity from one rule
    of the selected table. *)
Theorem severity_follows_type (random : nat -> double01)
    (code language : jsstring) (seed : nat) :
  exists res catalog f1 f2,
    call random code language seed = Normal res
    /\ issues res = catalog ++ [f1; f2]
    /\ Forall (fun i =>
                 exists rule,
                   In rule (rulesFor language)
                   /\ Issue.type i = Rule.type rule
                   /\ Issue.message i = Rule.message rule
                   /\ Issue.rule i = Rule.rule rule
                   /\ Issue.severity i = Rule.severity rule)
         catalog
    /\ Forall (fun i =>
                 match Issue.type i with
                 | error => Issue.severity i = high
                 | warning => Issue.severity i = medium
                 | suggestion =>
                     Issue.severity i = low \/ Issue.severity i = medium
                 end)
         (issues res).
Proof.
  destruct (call_run random code language seed) as (res & Hcall & Hissues & _).
  eexists res, _, _, _. split; [exact Hcall|]. split; [exact Hissues|].
  assert (Hcat : Forall (fun i =>
                 exists rule,
                   In rule (rulesFor language)
                   /\ Issue.type i = Rule.type rule
                   /\ Issue.message i = Rule.message rule
                   /\ Issue.rule i = Rule.rule rule
                   /\ Issue.severity i = Rule.severity rule)
                   (catalogIssues random code (rulesFor language) seed)).
  { apply Forall_forall. intros i Hi. apply In_catalogIssues in Hi.
    destruct Hi as (rule & m & k & Hr & _ & ->). exists rule. simpl. auto. }
  split; [exact Hcat|].
  rewrite Hissues. apply Forall_app. split.
  - eapply Forall_impl; [|exact Hcat].
    intros i (rule & Hr & -> & _ & _ & ->).
    destruct (rulesFor_cases language) as [E | [E | [E | E]]];
      rewrite E in Hr; simpl in Hr;
      repeat (destruct Hr as [<-|Hr]; [simpl; auto|]); contradiction.
  - repeat constructor; simpl; auto.
Qed.

(** X11: the score is 89 exactly when the Matcher finds nothing. *)
Theorem score_89_iff_no_catalog_issue (random : nat -> double01)
    (code language : jsstring) (seed : nat) :
  exists res catalog,
    call random code language seed = Normal res
    /\ Matcher random code language seed = Normal catalog
    /\ (score res = 89%Z <-> catalog = []).
Proof.
  destruct (call_run random code language seed)
    as (res & Hcall & Hissues & Hscore & _).
  set (catalog := catalogIssues _ _ _ _) in Hissues.
  set (filler := _ :: _ :: nil) in Hissues.
  exists res, catalog. split; [exact Hcall|]. split; [apply Matcher_run|].
  rewrite Hscore, Hissues, !countType_app.
  change (countType error filler) with 0%Z.
  change (countType warning filler) with 1%Z.
  change (countType suggestion filler) with 1%Z.
  pose proof (countType_total catalog) as Htot.
  pose proof (countType_nonneg error catalog).
  pose proof (countType_nonneg warning catalog).
  pose proof (countType_nonneg suggestion catalog).
  split.
  - intros H89. destruct catalog as [|i l]; [reflexivity|].
    simpl length in Htot. lia.
  - intros E. rewrite E in *. reflexivity.
Qed.

(** * The result on the panel and in the report *)

(** X12: no result of the analyzer is shown in the green band, on the panel
    or in the report, which choose the same band: the yellow one when the
    penalties of the issues of the catalog total at most 19, the red one
    otherwise. *)
Theorem result_band_never_green (random : nat -> double01)
    (code language : jsstring) (seed : nat) :
  exists res catalog,
    call random code language seed = Normal res
    /\ Matcher random code language seed = Normal catalog
    /\ let penalty :=
         (15 * countType error catalog + 8 * countType warning catalog
          + 3 * countType suggestion catalog)%Z in
       ((penalty <= 19)%Z
        /\ Panel.getScoreColor (score res) = lit "text-yellow-400"
        /\ Panel.getScoreGradient (score res) = lit "from-yellow-500 to-yellow-600"
        /\ PdfExport.scoreColor (score res) = [251; 191; 36]%Z)
       \/ ((19 < penalty)%Z
           /\ Panel.getScoreColor (score res) = lit "text-red-400"
           /\ Panel.getScoreGradient (score res) = lit "from-red-500 to-red-600"
           /\ PdfExport.scoreColor (score res) = [239; 68; 68]%Z).
Proof.
  destruct (call_run random code language seed)
    as (res & Hcall & Hissues & Hscore & _).
  set (catalog := catalogIssues _ _ _ _) in Hissues.
  set (filler := _ :: _ :: nil) in Hissues.
  exists res, catalog. split; [exact Hcall|]. split; [apply Matcher_run|].
  rewrite Hissues, !countType_app in Hscore.
  change (countType error filler) with 0%Z in Hscore.
  change (countType warning filler) with 1%Z in Hscore.
  change (countType suggestion filler) with 1%Z in Hscore.
  pose proof (countType_nonneg error catalog).
  pose proof (countType_nonneg warning catalog).
  pose proof (countType_nonneg suggestion catalog).
  cbv zeta.
  unfold Panel.getScoreColor, Panel.getScoreGradient, PdfExport.scoreColor.
  destruct (Z.leb_spec 90 (score res)) as [H90|H90]; [lia|].
  destruct (Z.leb_spec 70 (score res)) as [H70|H70].
  - left. repeat split; lia.
  - right. repeat split; lia.
Qed.

(** X13: the three counts of the panel, which are those of the report, add
    up to the number of issues, and for a result of the analyzer neither
    the count of warnings nor that of suggestions is 0. *)
Theorem issue_counts_cover_result (random : nat -> double01)
    (code language : jsstring) (seed : nat) :
  exists res,
    call random code language seed = Normal res
    /\ Panel.errors (Panel.issuesByType res)
       + Panel.warnings (Panel.issuesByType res)
       + Panel.suggestions (Panel.issuesByType res) = length (issues res)
    /\ 1 <= Panel.warnings (Panel.issuesByType res)
    /\ 1 <= Panel.suggestions (Panel.issuesByType res)
    /\ PdfExport.errorCount res = Panel.errors (Panel.issuesByType res)
    /\ PdfExport.warningCount res = Panel.warnings (Panel.issuesByType res)
    /\ PdfExport.suggestionCount res = Panel.suggestions (Panel.issuesByType res).
Proof.
  destruct (call_run random code language seed) as (res & Hcall & Hissues & _).
  set (filler := _ :: _ :: nil) in Hissues.
  exists res. split; [exact Hcall|].
  pose proof (countType_total (issues res)) as Htot.
  unfold countType in Htot.
  unfold Panel.issuesByType. cbn [Panel.errors Panel.warnings Panel.suggestions].
  split; [lia|].
  unfold PdfExport.errorCount, PdfExport.warningCount, PdfExport.suggestionCount.
  split; [|split; [|repeat split; reflexivity]];
    rewrite Hissues, filter_app, length_app;
    unfold filler; cbn [filter Issue.type IssueType_eqb length]; lia.
Qed.

(** X14: the report details the first 10 issues: all of them when the
    catalog gives at most 8, all but the second filler when it gives 9, and
    no filler when it gives 10 or more. *)
Theorem report_details_first_ten (random : nat -> double01)
    (code language : jsstring) (seed : nat) :
  exists res catalog f1 f2,
    call random code language seed = Normal res
    /\ Matcher random code language seed = Normal catalog
    /\ issues res = catalog ++ [f1; f2]
    /\ ((length catalog <= 8 /\ PdfExport.detailedIssues res = issues res)
        \/ (length catalog = 9 /\ PdfExport.detailedIssues res = catalog ++ [f1])
        \/ (10 <= length catalog
            /\ PdfExport.detailedIssues res = firstn 10 catalog)).
Proof.
  destruct (call_run random code language seed) as (res & Hcall & Hissues & _).
  set (catalog := catalogIssues _ _ _ _) in Hissues.
  eexists res, catalog, _, _. split; [exact Hcall|].
  split; [apply Matcher_run|]. split; [exact Hissues|].
  unfold PdfExport.detailedIssues. rewrite Hissues.
  destruct (le_lt_dec (length catalog) 8) as [H8|H8].
  - left. split; [exact H8|]. apply firstn_all2. rewrite length_app. simpl. lia.
  - destruct (le_lt_dec 10 (length catalog)) as [H10|H10].
    + right. right. split; [exact H10|].
      rewrite firstn_app. replace (10 - length catalog) with 0 by lia.
      cbn [firstn]. apply app_nil_r.
    + right. left. assert (H9 : length catalog = 9) by lia.
      split; [exact H9|].
      rewrite firstn_app, (firstn_all2 catalog) by lia.
      replace (10 - length catalog) with 1 by lia. reflexivity.
Qed.

(** X15: the guard of the section of suggestions holds for every result of
    the analyzer, on the panel and in the report. *)
Theorem suggestions_always_shown (random : nat -> double01)
    (code language : jsstring) (seed : nat) :
  exists res,
    call random code language seed = Normal res
    /\ Panel.showsSuggestions res = true
    /\ PdfExport.printsSuggestions res = true.
Proof.
  destruct (call_run random code language seed)
    as (res & Hcall & _ & _ & _ & _ & _ & Hsug).
  exists res. split; [exact Hcall|].
  unfold Panel.showsSuggestions, PdfExport.printsSuggestions.
  match type of Hsug with context [floor_mul ?x 3] =>
    pose proof (floor_mul_range x 3 eq_refl) as Hr end.
  simpl in Hr.
  assert (Hlen : 2 <= length (suggestions res)).
  { rewrite Hsug, length_firstn. simpl length. lia. }
  split; apply Nat.ltb_lt; lia.
Qed.

(** * The application *)

Section Application.

Variable toLowerCase : jsstring -> jsstring.

Lemma handleFileUpload_fields (name content : jsstring) (st : App.State) :
  App.code (App.handleFileUpload toLowerCase name content st) = content
  /\ App.result (App.handleFileUpload toLowerCase name content st)
     = App.result st
  /\ App.isAnalyzing (App.handleFileUpload toLowerCase name content st)
     = App.isAnalyzing st
  /\ (App.language (App.handleFileUpload toLowerCase name content st)
      = App.language st
      \/ In (App.language (App.handleFileUpload toLowerCase name content st))
           languages).
Proof.
  unfold App.handleFileUpload. cbv zeta.
  set (e := App.extension toLowerCase name).
  destruct (strictEq e (lit "java")); [simpl; auto 10|].
  destruct (strictEq e (lit "py")); [simpl; auto 10|].
  destruct (strictEq e (lit "cpp") || strictEq e (lit "cc")
            || strictEq e (lit "cxx")); simpl; auto 10.
Qed.

(** What every reachable state of the application satisfies. *)
Lemma reachable_invariant (m : App.Machine) :
  App.reachable toLowerCase m ->
  In (App.language (App.ui m)) languages
  /\ Forall (fun p => truthy (trim (fst p)) = true /\ In (snd p) languages)
       (App.pending m)
  /\ length (App.pending m) <= 1
  /\ (App.isAnalyzing (App.ui m) = true <-> App.pending m <> [])
  /\ (forall res, App.result (App.ui m) = Some res ->
      exists random c l seed,
        call random c l seed = Normal res
        /\ truthy (trim c) = true /\ In l languages).
Proof.
  intros Hr. induction Hr as [|m m' Hr IH Hstep].
  - simpl. repeat split; auto; try discriminate.
  - destruct IH as (HL & HP & HN & HA & HR).
    destruct Hstep as [m value | m | m value Hv | m st Hs | m name content
                      | m Hen | m random seed c l rest Hp];
      cbn [App.ui App.pending].
    + repeat split; try assumption; apply HA.
    + repeat split; try assumption; apply HA.
    + repeat split; try assumption; apply HA.
    + unfold App.handleLoadSample in Hs.
      destruct (sampleCodes (App.language (App.ui m))); [|discriminate].
      injection Hs as <-. repeat split; try assumption; apply HA.
    + destruct (handleFileUpload_fields name content (App.ui m))
        as (_ & Hres & Han & Hlang).
      rewrite Hres, Han.
      repeat split; try assumption; try apply HA.
      destruct Hlang as [->|Hlang]; assumption.
    + unfold App.analyzeDisabled in Hen. apply orb_false_iff in Hen.
      destruct Hen as [Hcode Han]. apply negb_false_iff in Hcode.
      assert (Hpend : App.pending m = []).
      { destruct (App.pending m) as [|p ps]; [reflexivity|].
        assert (App.isAnalyzing (App.ui m) = true) by (apply HA; discriminate).
        congruence. }
      unfold App.handleAnalyze. rewrite Hcode, Hpend. simpl.
      repeat split; auto; try discriminate.
    + rewrite Hp in HP, HN. simpl in HN.
      assert (rest = []) by (destruct rest; [reflexivity|simpl in HN; lia]).
      subst rest. inversion HP as [|? ? [Hc Hl] _]; subst. simpl in Hc, Hl.
      destruct (call_run random c l seed) as (res & Hcall & _).
      rewrite Hcall. simpl.
      repeat split; auto; try discriminate.
      intros res' [= <-]. exists random, c, l, seed. auto.
Qed.

(** X16: the language of the application is always one of [java], [python]
    and [cpp], whatever was clicked, typed or uploaded: the analyzer always
    gets a table of rules, and Load Sample always finds a text, which is
    not blank. *)
Theorem app_language_always_supported (m : App.Machine) :
  App.reachable toLowerCase m ->
  In (App.language (App.ui m)) languages
  /\ rulesFor (App.language (App.ui m)) <> []
  /\ exists st,
       App.handleLoadSample (App.ui m) = Some st
       /\ truthy (trim (App.code st)) = true.
Proof.
  intros Hr. destruct (reachable_invariant m Hr) as (HL & _).
  split; [exact HL|].
  unfold App.handleLoadSample.
  simpl in HL. destruct HL as [<-|[<-|[<-|[]]]];
    (split; [discriminate|]); eexists; (split; [reflexivity|]);
    vm_compute; reflexivity.
Qed.

(** X17: at most one call of the analyzer is outstanding, [isAnalyzing]
    holds exactly while one is, the Analyze button is then disabled, and
    the call was started on a text that is not blank, in one of the three
    languages. *)
Theorem app_one_analysis_at_a_time (m : App.Machine) :
  App.reachable toLowerCase m ->
  length (App.pending m) <= 1
  /\ (App.isAnalyzing (App.ui m) = true <-> App.pending m <> [])
  /\ (App.pending m = [] \/ App.analyzeDisabled (App.ui m) = true)
  /\ Forall (fun p => truthy (trim (fst p)) = true /\ In (snd p) languages)
       (App.pending m).
Proof.
  intros Hr. destruct (reachable_invariant m Hr) as (_ & HP & HN & HA & _).
  repeat split; try assumption; try apply HA.
  destruct (App.pending m) as [|p ps] eqn:E; [now left|right].
  unfold App.analyzeDisabled.
  assert (App.isAnalyzing (App.ui m) = true) as -> by (apply HA; discriminate).
  apply orb_true_r.
Qed.

(** X18: when the outstanding call settles, [handleAnalyze] stores its
    result and clears [isAnalyzing], leaving text and language as they are
    by then; its [catch] is never entered, and no other call is left. *)
Theorem app_settle_stores_result (m : App.Machine) (random : nat -> double01)
    (seed : nat) (c l : jsstring) (rest : list (jsstring * jsstring)) :
  App.reachable toLowerCase m ->
  App.pending m = (c, l) :: rest ->
  exists res,
    call random c l seed = Normal res
    /\ App.handleAnalyzeResume (call random c l seed) (App.ui m)
       = App.mkState (App.code (App.ui m)) (App.language (App.ui m))
           (Some res) false
    /\ rest = [].
Proof.
  intros Hr Hp. destruct (reachable_invariant m Hr) as (_ & _ & HN & _).
  rewrite Hp in HN. simpl in HN.
  destruct (call_run random c l seed) as (res & Hcall & _).
  exists res. split; [exact Hcall|]. rewrite Hcall. split; [reflexivity|].
  destruct rest; [reflexivity|simpl in HN; lia].
Qed.

(** X19: what the panel shows: the spinner exactly while a call is
    outstanding, and otherwise the invitation or the report of a result
    that the analyzer returned for a text that was not blank, in one of the
    three languages; such a report has at least two issues and a score of
    at most 89. *)
Theorem app_panel_view (m : App.Machine) :
  App.reachable toLowerCase m ->
  (App.pending m <> []
   /\ Panel.AnalysisResults (App.result (App.ui m)) (App.isAnalyzing (App.ui m))
      = Panel.Spinner)
  \/ (App.pending m = []
      /\ Panel.AnalysisResults (App.result (App.ui m))
           (App.isAnalyzing (App.ui m)) = Panel.Invitation)
  \/ (App.pending m = []
      /\ exists res random c l seed,
           Panel.AnalysisResults (App.result (App.ui m))
             (App.isAnalyzing (App.ui m)) = Panel.Report res
           /\ call random c l seed = Normal res
           /\ truthy (trim c) = true /\ In l languages
           /\ 2 <= length (issues res) /\ (score res <= 89)%Z).
Proof.
  intros Hr. destruct (reachable_invariant m Hr) as (_ & _ & _ & HA & HR).
  unfold Panel.AnalysisResults.
  destruct (App.isAnalyzing (App.ui m)) eqn:Han.
  - left. split; [now apply HA|reflexivity].
  - assert (Hp : App.pending m = []).
    { destruct (App.pending m) as [|p ps]; [reflexivity|].
      assert (false = true) by (apply HA; discriminate). discriminate. }
    right. destruct (App.result (App.ui m)) as [res|] eqn:Hres; [right|now left].
    split; [exact Hp|].
    destruct (HR res eq_refl) as (random & c & l & seed & Hcall & Hc & Hl).
    exists res, random, c, l, seed.
    repeat (split; [first [reflexivity | assumption]|]).
    destruct (call_run random c l seed) as (res' & Hcall' & Hissues & Hscore & _).
    rewrite Hcall in Hcall'. apply Normal_inj in Hcall'. subst res'.
    set (catalog := catalogIssues _ _ _ _) in Hissues.
    set (filler := _ :: _ :: nil) in Hissues.
    split.
    + rewrite Hissues, length_app. simpl. lia.
    + rewrite Hscore, Hissues, !countType_app.
      pose proof (countType_nonneg error catalog).
      pose proof (countType_nonneg warning catalog).
      pose proof (countType_nonneg suggestion catalog).
      change (countType error filler) with 0%Z.
      change (countType warning filler) with 1%Z.
      change (countType suggestion filler) with 1%Z.
      lia.
Qed.





End Application.

(** ** Sample runs of the application *)

Lemma editedMachine_reachable (toLowerCase : jsstring -> jsstring) :
  App.reachable toLowerCase editedMachine.
Proof.
  apply App.reachable_step with (m := App.start).
  - apply App.reachable_start.
  - exact (App.step_edit toLowerCase App.start (lit "class a")).
Qed.

Lemma analyzingMachine_reachable (toLowerCase : jsstring -> jsstring) :
  App.reachable toLowerCase analyzingMachine.
Proof.
  apply App.reachable_step with (m := editedMachine).
  - apply editedMachine_reachable.
  - exact (App.step_analyze toLowerCase editedMachine eq_refl).
Qed.

Lemma settledMachine_reachable (toLowerCase : jsstring -> jsstring) :
  App.reachable toLowerCase settledMachine.
Proof.
  apply App.reachable_step with (m := analyzingMachine).
  - apply analyzingMachine_reachable.
  - exact (App.step_settle toLowerCase analyzingMachine sampleRandom 0
             (lit "class a") (lit "java") [] eq_refl).
Qed.

Lemma app_language_always_supported_witness :
  App.reachable asciiLower settledMachine
  /\ In (App.language (App.ui settledMachine)) languages
  /\ rulesFor (App.language (App.ui settledMachine)) <> []
  /\ exists st,
       App.handleLoadSample (App.ui settledMachine) = Some st
       /\ truthy (trim (App.code st)) = true.
Proof.
  split; [apply settledMachine_reachable|].
  apply (app_language_always_supported asciiLower).
  apply settledMachine_reachable.
Defined.

Lemma app_one_analysis_at_a_time_witness :
  App.reachable asciiLower analyzingMachine
  /\ length (App.pending analyzingMachine) <= 1
  /\ (App.isAnalyzing (App.ui analyzingMachine) = true
      <-> App.pending analyzingMachine <> [])
  /\ (App.pending analyzingMachine = []
      \/ App.analyzeDisabled (App.ui analyzingMachine) = true)
  /\ Forall (fun p => truthy (trim (fst p)) = true /\ In (snd p) languages)
       (App.pending analyzingMachine).
Proof.
  split; [apply analyzingMachine_reachable|].
  apply (app_one_analysis_at_a_time asciiLower).
  apply analyzingMachine_reachable.
Defined.

Lemma app_settle_stores_result_witness :
  (App.reachable asciiLower analyzingMachine
   /\ App.pending analyzingMachine = [(lit "class a", lit "java")])
  /\ exists res,
       call sampleRandom (lit "class a") (lit "java") 0 = Normal res
       /\ App.handleAnalyzeResume
            (call sampleRandom (lit "class a") (lit "java") 0)
            (App.ui analyzingMachine)
          = App.mkState (lit "class a") (lit "java") (Some res) false
       /\ @nil (jsstring * jsstring) = [].
Proof.
  split; [split; [apply analyzingMachine_reachable|reflexivity]|].
  apply (app_settle_stores_result asciiLower analyzingMachine sampleRandom 0
           (lit "class a") (lit "java") []).
  - apply analyzingMachine_reachable.
  - reflexivity.
Defined.

Lemma app_panel_view_witness :
  App.reachable asciiLower settledMachine
  /\ ((App.pending settledMachine <> []
       /\ Panel.AnalysisResults (App.result (App.ui settledMachine))
            (App.isAnalyzing (App.ui settledMachine)) = Panel.Spinner)
      \/ (App.pending settledMachine = []
          /\ Panel.AnalysisResults (App.result (App.ui settledMachine))
               (App.isAnalyzing (App.ui settledMachine)) = Panel.Invitation)
      \/ (App.pending settledMachine = []
          /\ exists res random c l seed,
               Panel.AnalysisResults (App.result (App.ui settledMachine))
                 (App.isAnalyzing (App.ui settledMachine)) = Panel.Report res
               /\ call random c l seed = Normal res
               /\ truthy (trim c) = true /\ In l languages
               /\ 2 <= length (issues res) /\ (score res <= 89)%Z)).
Proof.
  split; [apply settledMachine_reachable|].
  apply (app_panel_view asciiLower).
  apply settledMachine_reachable.
Defined.

